(** * Efficient-Apriori: frequent itemsets, join / prune / level-wise mining

    A shallow embedding of [efficient_apriori/itemsets.py] and the
    properties its specification states about it.

    Conventions of the embedding
    - An item is a Python [int], modelled as [Z]; a tuple of items (an
      itemset) is a [list Z].
    - A Python [dict] whose iteration order matters (the per-level
      mappings, the [defaultdict(int)] counters) is an association list in
      insertion order; the outer [{k: level}] mapping and the
      [use_transaction] mask are [gmap]s.
    - [min_support] is a binary64 float; [c / num_transactions] is
      Python's true division, modelled with the kernel's primitive floats
      (exact for counts below 2^53).
    - Exceptions are values of [result]; the level-wise [while] loop takes
      fuel, and [None] means the fuel ran out before the loop exited. *)

From Stdlib Require Import PrimFloat Uint63.
From stdpp Require Import gmap list sorting.

Abbreviation tuple := (list Z) (only parsing).

(** ** Exceptions *)

(** [TypeError] and [ValueError] are the exceptions the function raises
    itself, with its own messages.  [OperandTypeError] is the [TypeError]
    the interpreter raises for a comparison that is not supported
    (['<=' not supported between instances of 'int' and 'complex']). *)
Inductive exn := TypeError | ValueError | KeyError | OperandTypeError.

Inductive result (A : Type) :=
  | Ok (a : A)
  | Raise (e : exn).
Arguments Ok {A} a.
Arguments Raise {A} e.

Definition rbind {A B} (m : result A) (f : A → result B) : result B :=
  match m with
  | Ok a => f a
  | Raise e => Raise e
  end.

Notation "x ←! m ; k" := (rbind m (λ x, k))
  (at level 20, m at level 100, k at level 200, only parsing).

(** ** Python's ordering of ints, tuples and pairs, and [sorted] *)

Class PyOrd (A : Type) := py_ltb : A → A → bool.

#[global] Instance Z_PyOrd : PyOrd Z := Z.ltb.
#[global] Instance nat_PyOrd : PyOrd nat := Nat.ltb.

(** Tuples of any length compare lexicographically; a proper prefix is
    smaller. *)
Fixpoint list_ltb `{PyOrd A, EqDecision A} (s t : list A) : bool :=
  match s, t with
  | [], [] => false
  | [], _ :: _ => true
  | _ :: _, [] => false
  | a :: s', b :: t' => if decide (a = b) then list_ltb s' t' else py_ltb a b
  end.

#[global] Instance list_PyOrd `{PyOrd A, EqDecision A} : PyOrd (list A) := list_ltb.

(** A 2-tuple [(x, y)] with components of different types. *)
#[global] Instance prod_PyOrd `{PyOrd A, EqDecision A, PyOrd B} : PyOrd (A * B) :=
  λ p q, if decide (p.1 = q.1) then py_ltb p.2 q.2 else py_ltb p.1 q.1.

(** [sorted(l)]: ascending, [x] may precede [y] when not [y < x]. *)
Definition py_le `{PyOrd A} (x y : A) : Prop := py_ltb y x = false.

#[global] Instance py_le_dec `{PyOrd A} : RelDecision (py_le (A := A)).
Proof. intros x y. unfold py_le. apply _. Defined.

Definition py_sorted `{PyOrd A} (l : list A) : list A := merge_sort py_le l.

(** ** Tuples *)

(** [*first, last = t]; unpacking the empty tuple raises [ValueError]. *)
Definition unpack_last (t : tuple) : result (tuple * Z) :=
  match last t with
  | None => Raise ValueError
  | Some x => Ok (removelast t, x)
  end.

(** [t[:i] + t[i + 1:]] *)
Definition remove_at (i : nat) (t : tuple) : tuple := take i t ++ drop (S i) t.

(** [itertools.combinations(l, 2)] *)
Fixpoint combinations2 (l : list Z) : list (Z * Z) :=
  match l with
  | [] => []
  | a :: l' => (pair a <$> l') ++ combinations2 l'
  end.

(** ** Dictionaries in insertion order *)

(** [d[k] += 1] on a [defaultdict(int)] *)
Fixpoint dict_incr `{EqDecision K} (k : K) (d : list (K * nat)) : list (K * nat) :=
  match d with
  | [] => [(k, 1)]
  | (k', c) :: d' =>
      if decide (k = k') then (k', S c) :: d' else (k', c) :: dict_incr k d'
  end.

(** [d[k] = v] *)
Fixpoint dict_set `{EqDecision K} {V} (k : K) (v : V) (d : list (K * V)) : list (K * V) :=
  match d with
  | [] => [(k, v)]
  | (k', v') :: d' =>
      if decide (k = k') then (k', v) :: d' else (k', v') :: dict_set k v d'
  end.

(** [{k: v for (k, v) in l}] *)
Definition dict_of_pairs `{EqDecision K} {V} (l : list (K * V)) : list (K * V) :=
  foldl (λ d kv, dict_set kv.1 kv.2 d) [] l.

(** ** [join_step] *)

(** The [for j in range(i + 1, len(itemsets))] loop: collect the last items
    of the itemsets that follow and share [itemset_first], up to the first
    one that does not. *)
Fixpoint scan_block (itemset_first : tuple) (following : list tuple) : result (list Z) :=
  match following with
  | [] => Ok []
  | itemset_n :: following' =>
      p ←! unpack_last itemset_n;
      if decide (itemset_first = p.1)
      then tails ←! scan_block itemset_first following'; Ok (p.2 :: tails)
      else Ok []
  end.

(** The [while i < len(itemsets)] loop; every iteration advances [i] by
    [skip >= 1], so [len(itemsets)] iterations are enough. *)
Fixpoint join_while (fuel : nat) (itemsets : list tuple) (i : nat) : result (list tuple) :=
  match fuel with
  | 0 => Ok []
  | S fuel' =>
      match drop i itemsets with
      | [] => Ok []
      | itemset :: following =>
          p ←! unpack_last itemset;
          let itemset_first := p.1 in
          tails ←! scan_block itemset_first following;
          let tail_items := p.2 :: tails in
          let skip := length tail_items in
          rest ←! join_while fuel' itemsets (i + skip);
          Ok (((λ ab : Z * Z, itemset_first ++ [ab.1] ++ [ab.2])
                 <$> py_sorted (combinations2 tail_items)) ++ rest)
      end
  end.

Definition join_step (itemsets : list tuple) : result (list tuple) :=
  join_while (length itemsets) itemsets 0.

(** ** [prune_step] *)

(** The inner [for i in range(len(possible_itemset) - 2)] loop ran to its
    [else] branch. *)
Definition passes_prune (itemsets : list tuple) (possible_itemset : tuple) : Prop :=
  Forall (λ i, remove_at i possible_itemset ∈ itemsets)
         (seq 0 (length possible_itemset - 2)).

#[global] Instance passes_prune_dec itemsets c : Decision (passes_prune itemsets c).
Proof. unfold passes_prune. apply _. Defined.

Definition prune_step (itemsets : list tuple) (possible_itemsets : list tuple) : list tuple :=
  filter (passes_prune itemsets) possible_itemsets.

Definition apriori_gen (itemsets : list tuple) : result (list tuple) :=
  possible_extensions ←! join_step itemsets;
  Ok (prune_step itemsets possible_extensions).

(** ** [itemsets_from_transactions] *)

(** What a call of a callable [transactions] returns. *)
Inductive py_returned :=
  | Generator (ts : list tuple)
  | OtherIterable (ts : list tuple)
  | NotIterable.

(** The [transactions] argument. *)
Inductive py_transactions :=
  | Iterable (ts : list tuple)
  | Callable (ret : py_returned)
  | OtherObject.

(** The [min_support] argument: a real number (seen as a float), a
    [numbers.Number] that cannot be ordered (a [complex]), or an object
    that is no [numbers.Number]. *)
Inductive py_min_support :=
  | Number (x : float)
  | UnorderedNumber
  | NotNumber.

(** [set(t)], in some iteration order ([mine_set_order]: the order does not
    matter). *)
Definition py_set (t : list Z) : list Z := remove_dups t.

(** [set.issubset(candidate_set, transaction)] *)
Definition issubset (candidate_set transaction : list Z) : Prop :=
  candidate_set ⊆ transaction.

(** [(c / num_transactions) >= min_support]: true division of two ints,
    compared as binary64 floats.  The function divides only when a count
    exists, and then [num_transactions] is not 0. *)
Definition float_of_nat (n : nat) : float :=
  PrimFloat.of_uint63 (Uint63.of_Z (Z.of_nat n)).

Definition ge_support (min_support : float) (c num_transactions : nat) : bool :=
  PrimFloat.leb min_support (PrimFloat.div (float_of_nat c) (float_of_nat num_transactions)).

(** STEP 0.  The first component is the number of transactions of the
    caller's input that have been iterated when the step ends (by returning
    or by raising). *)
Definition sanitize (transactions : py_transactions) (min_support : py_min_support)
  : nat * result (list (list Z) * float) :=
  let '(consumed, source) :=
    match transactions with
    | Iterable ts =>
        (length ts, Ok (py_set <$> filter (λ t, 0 < length t) ts))
    | Callable ret_value =>
        match ret_value with
        | Generator ts => (0, Ok ts)
        | _ => (0, Raise TypeError)
        end
    | OtherObject => (0, Raise TypeError)
    end in
  (consumed,
   rows ←! source;
   match min_support with
   | Number x =>
       if PrimFloat.leb 0 x && PrimFloat.leb x 1 then Ok (rows, x)
       else Raise ValueError
   | UnorderedNumber => Raise OperandTypeError
   | NotNumber => Raise ValueError
   end).

(** STEP 1: one pass over the transactions. *)
Definition count_items (rows : list (list Z)) : list (Z * nat) * nat :=
  foldl (λ st transaction,
           (foldl (λ counts item, dict_incr item counts) st.1 transaction, S st.2))
        ([], 0) rows.

(** [enumerate(l)] *)
Definition enumerate {A} (l : list A) : list (nat * A) := zip (seq 0 (length l)) l.

(** [use_transaction[row]] on a [defaultdict(lambda: True)] *)
Definition mask_get (use_transaction : gmap nat bool) (row : nat) : bool :=
  default true (use_transaction !! row).

(** The [for candidate, candidate_set in zip(C_k, C_k_sets)] loop on one
    transaction; the second component is [found_any]. *)
Definition count_match (transaction : list Z)
    (acc : list (list Z * nat) * bool) (cc : list Z * list Z)
  : list (list Z * nat) * bool :=
  if decide (issubset cc.2 transaction)
  then (dict_incr cc.1 acc.1, true)
  else acc.

Definition count_matches (C_k : list tuple) (C_k_sets : list (list Z))
    (transaction : list Z) (acc : list (list Z * nat) * bool)
  : list (list Z * nat) * bool :=
  foldl (count_match transaction) acc (zip C_k C_k_sets).

(** The body of [for row, transaction in enumerate(transactions())]. *)
Definition count_row (C_k : list tuple) (C_k_sets : list (list Z))
    (st : list (list Z * nat) * gmap nat bool) (rt : nat * list Z)
  : list (list Z * nat) * gmap nat bool :=
  if negb (mask_get st.2 rt.1) then st
  else
    let inner := count_matches C_k C_k_sets rt.2 (st.1, false) in
    if negb inner.2 then (inner.1, <[rt.1 := false]> st.2)
    else (inner.1, st.2).

Definition count_candidates (C_k : list tuple) (rows : list (list Z))
    (use_transaction : gmap nat bool) : list (tuple * nat) * gmap nat bool :=
  foldl (count_row C_k (py_set <$> C_k)) ([], use_transaction) (enumerate rows).

(** The state of the [while] loop of STEP 2. *)
Record loop_state := LoopState {
  large_itemsets : gmap nat (list (list Z * nat));
  level_k : nat;
  use_transaction : gmap nat bool
}.

Inductive step_result :=
  | Continue (st : loop_state)
  | Exit (r : result (gmap nat (list (list Z * nat)))).

(** The loop test followed by one run of the loop body. *)
Definition level_step (rows : list (list Z)) (num_transactions : nat)
    (min_support : float) (st : loop_state) : step_result :=
  let k := level_k st in
  match large_itemsets st !! (k - 1) with
  | None => Exit (Raise KeyError)
  | Some previous =>
      if decide (previous = []) then Exit (Ok (large_itemsets st))
      else
        let itemsets_list := previous.*1 in
        match apriori_gen itemsets_list with
        | Raise e => Exit (Raise e)
        | Ok C_k =>
            let counted := count_candidates C_k rows (use_transaction st) in
            let C_k' :=
              filter (λ ic, ge_support min_support ic.2 num_transactions = true)
                     counted.1 in
            if decide (C_k' = []) then Exit (Ok (large_itemsets st))
            else Continue
                   (LoopState (<[k := dict_of_pairs (py_sorted C_k')]> (large_itemsets st))
                              (S k) counted.2)
        end
  end.

Fixpoint level_loop (fuel : nat) (rows : list (list Z)) (num_transactions : nat)
    (min_support : float) (st : loop_state)
  : option (result (gmap nat (list (list Z * nat)))) :=
  match fuel with
  | 0 => None
  | S fuel' =>
      match level_step rows num_transactions min_support st with
      | Exit r => Some r
      | Continue st' => level_loop fuel' rows num_transactions min_support st'
      end
  end.

(** STEPs 1 and 2 on the sanitized inputs. *)
Definition mine (fuel : nat) (rows : list (list Z)) (min_support : float)
  : option (result (gmap nat (list (list Z * nat)) * nat)) :=
  let '(counts, num_transactions) := count_items rows in
  let large :=
    filter (λ ic, ge_support min_support ic.2 num_transactions = true) counts in
  if decide (large = []) then Some (Ok (∅, num_transactions))
  else
    let level1 := dict_of_pairs ((λ ic : Z * nat, ([ic.1], ic.2)) <$> py_sorted large) in
    r ← level_loop fuel rows num_transactions min_support
          (LoopState {[ 1 := level1 ]} 2 ∅);
    Some (levels ←! r; Ok (levels, num_transactions)).

Definition itemsets_from_transactions (fuel : nat) (transactions : py_transactions)
    (min_support : py_min_support)
  : option (result (gmap nat (list (list Z * nat)) * nat)) :=
  match (sanitize transactions min_support).2 with
  | Raise e => Some (Raise e)
  | Ok (rows, x) => mine fuel rows x
  end.

(** ** The same run with the row skipping disabled

    Every row is counted at every level: [count_row] without the
    [use_transaction] test (and without the mask). *)

Definition count_row_all (C_k : list tuple) (C_k_sets : list (list Z))
    (counts : list (list Z * nat)) (transaction : list Z) : list (list Z * nat) :=
  (count_matches C_k C_k_sets transaction (counts, false)).1.

Definition count_candidates_all (C_k : list tuple) (rows : list (list Z))
  : list (list Z * nat) :=
  foldl (count_row_all C_k (py_set <$> C_k)) [] rows.

Definition level_step_all (rows : list (list Z)) (num_transactions : nat)
    (min_support : float) (st : loop_state) : step_result :=
  let k := level_k st in
  match large_itemsets st !! (k - 1) with
  | None => Exit (Raise KeyError)
  | Some previous =>
      if decide (previous = []) then Exit (Ok (large_itemsets st))
      else
        let itemsets_list := previous.*1 in
        match apriori_gen itemsets_list with
        | Raise e => Exit (Raise e)
        | Ok C_k =>
            let counted := count_candidates_all C_k rows in
            let C_k' :=
              filter (λ ic, ge_support min_support ic.2 num_transactions = true)
                     counted in
            if decide (C_k' = []) then Exit (Ok (large_itemsets st))
            else Continue
                   (LoopState (<[k := dict_of_pairs (py_sorted C_k')]> (large_itemsets st))
                              (S k) (use_transaction st))
        end
  end.

Fixpoint level_loop_all (fuel : nat) (rows : list (list Z)) (num_transactions : nat)
    (min_support : float) (st : loop_state)
  : option (result (gmap nat (list (list Z * nat)))) :=
  match fuel with
  | 0 => None
  | S fuel' =>
      match level_step_all rows num_transactions min_support st with
      | Exit r => Some r
      | Continue st' => level_loop_all fuel' rows num_transactions min_support st'
      end
  end.

Definition mine_all (fuel : nat) (rows : list (list Z)) (min_support : float)
  : option (result (gmap nat (list (list Z * nat)) * nat)) :=
  let '(counts, num_transactions) := count_items rows in
  let large :=
    filter (λ ic, ge_support min_support ic.2 num_transactions = true) counts in
  if decide (large = []) then Some (Ok (∅, num_transactions))
  else
    let level1 := dict_of_pairs ((λ ic : Z * nat, ([ic.1], ic.2)) <$> py_sorted large) in
    r ← level_loop_all fuel rows num_transactions min_support
          (LoopState {[ 1 := level1 ]} 2 ∅);
    Some (levels ←! r; Ok (levels, num_transactions)).

Definition itemsets_from_transactions_all (fuel : nat) (transactions : py_transactions)
    (min_support : py_min_support)
  : option (result (gmap nat (list (list Z * nat)) * nat)) :=
  match (sanitize transactions min_support).2 with
  | Raise e => Some (Raise e)
  | Ok (rows, x) => mine_all fuel rows x
  end.

(** The loop state after [j] more runs of the loop body, when the loop is
    still running then. *)
Fixpoint state_after (j : nat) (rows : list (list Z)) (num_transactions : nat)
    (min_support : float) (st : loop_state) : option loop_state :=
  match j with
  | 0 => Some st
  | S j' =>
      match level_step rows num_transactions min_support st with
      | Exit _ => None
      | Continue st' => state_after j' rows num_transactions min_support st'
      end
  end.

(** ** Notions used in the statements *)

(** The value a [defaultdict(int)] gives for a key. *)
Fixpoint cnt `{EqDecision K} (k : K) (d : list (K * nat)) : nat :=
  match d with
  | [] => 0
  | (k', c) :: d' => if decide (k = k') then c else cnt k d'
  end.

(** Distinct keys, and no key is stored with count zero. *)
Definition dict_wf `{EqDecision K} (d : list (K * nat)) : Prop :=
  NoDup d.*1 ∧ ∀ k c, (k, c) ∈ d → 0 < c.


(** Number of transactions that contain every item of [c]. *)
Definition support_count (rows : list (list Z)) (c : list Z) : nat :=
  length (filter (λ t, c ⊆ t) rows).

(** Number of occurrences of [i] in all transactions together. *)
Definition occurrences (rows : list (list Z)) (i : Z) : nat :=
  length (filter (λ x, x = i) (concat rows)).

(** Number of distinct items of the transactions. *)
Definition distinct_items (rows : list (list Z)) : nat :=
  length (remove_dups (concat rows)).

(** A row that the mask excludes contains none of the itemsets [C]. *)
Definition mask_sound (C : list (list Z)) (rows : list (list Z))
    (use : gmap nat bool) : Prop :=
  ∀ row t, rows !! row = Some t → mask_get use row = false →
           ∀ c, c ∈ C → ¬ c ⊆ t.

(** How often [c] is met when the candidates [C] are tested on [t]. *)
Definition matches (C : list (list Z)) (t : list Z) (c : list Z) : nat :=
  length (filter (λ c', c' = c ∧ c' ⊆ t) C).

(** What holds of the level [lvl] stored under [j] in the mapping [m],
    for the transactions [rows] and the threshold test on [n]. *)
Definition level_ok (rows : list (list Z)) (n : nat) (ms : float)
    (m : gmap nat (list (list Z * nat))) (j : nat) (lvl : list (list Z * nat)) : Prop :=
  lvl ≠ [] ∧ NoDup lvl.*1 ∧
  ∀ S c, (S, c) ∈ lvl →
    length S = j ∧ NoDup S ∧ 0 < c ∧ ge_support ms c n = true
    ∧ (j = 1 → ∃ i, S = [i] ∧ c = occurrences rows i)
    ∧ (2 ≤ j → c = support_count rows S
               ∧ ∃ prev, m !! (j - 1) = Some prev
                         ∧ ∀ i, i < j → remove_at i S ∈ prev.*1).

(** The invariant of the [while] loop of STEP 2, at the loop test. *)
Record loop_inv (rows : list (list Z)) (n : nat) (ms : float) (st : loop_state) : Prop := {
  inv_k : 2 ≤ level_k st;
  inv_dom : ∀ j, is_Some (large_itemsets st !! j) ↔ 1 ≤ j < level_k st;
  inv_levels : ∀ j lvl, large_itemsets st !! j = Some lvl →
                        level_ok rows n ms (large_itemsets st) j lvl;
  inv_mask : ∀ prev, large_itemsets st !! (level_k st - 1) = Some prev →
                     mask_sound prev.*1 rows (use_transaction st)
}.

(** Two loop states that differ in the mask at most. *)
Definition same_levels (st st2 : loop_state) : Prop :=
  large_itemsets st = large_itemsets st2 ∧ level_k st = level_k st2.

(** [0 <= x <= 1] *)
Definition in_unit_interval (x : float) : Prop :=
  PrimFloat.leb 0 x = true ∧ PrimFloat.leb x 1 = true.

(** The inputs the function accepts. *)
Definition accepted_rows (transactions : py_transactions) : option (list (list Z)) :=
  match transactions with
  | Iterable ts => Some (py_set <$> filter (λ t, 0 < length t) ts)
  | Callable (Generator ts) => Some ts
  | _ => None
  end.

(** The transactions as the caller gave them, for the two accepted shapes. *)
Definition given_transactions (transactions : py_transactions) : option (list (list Z)) :=
  match transactions with
  | Iterable ts => Some ts
  | Callable (Generator ts) => Some ts
  | _ => None
  end.



(** The value a callable returns is iterable. *)
Definition returns_iterable (ret : py_returned) : Prop :=
  ret ≠ NotIterable.

(** The contract of [join_step] and [prune_step] on their first argument:
    tuples of length [k], each strictly increasing, listed in strictly
    increasing (lexicographic) order. *)
Definition tuple_lt (s t : list Z) : Prop := py_ltb s t = true.

Definition sorted_level (k : nat) (L : list (list Z)) : Prop :=
  Forall (λ s, length s = k ∧ Sorted Z.lt s) L ∧ Sorted tuple_lt L.

(** The downward-closure test on every position of a candidate, as the
    specification words it: each subset obtained by removing one item is in
    [itemsets]. *)
Definition all_subsets_in (itemsets : list (list Z)) (candidate : list Z) : Prop :=
  Forall (λ i, remove_at i candidate ∈ itemsets) (seq 0 (length candidate)).

#[global] Instance all_subsets_in_dec itemsets c : Decision (all_subsets_in itemsets c).
Proof. unfold all_subsets_in. apply _. Defined.

Definition prune_every_position (itemsets : list (list Z))
    (possible_itemsets : list (list Z)) : list (list Z) :=
  filter (all_subsets_in itemsets) possible_itemsets.

(** The transactions of the example of Agrawal et al. (1994). *)
Definition paper_transactions : list (list Z) :=
  [[1; 3; 4]; [2; 3; 5]; [1; 2; 3; 5]; [2; 5]]%Z.

Definition paper_itemsets : gmap nat (list (list Z * nat)) :=
  {[ 1 := [([1]%Z, 2); ([2]%Z, 3); ([3]%Z, 3); ([5]%Z, 3)];
     2 := [([1; 3]%Z, 2); ([2; 3]%Z, 2); ([2; 5]%Z, 3); ([3; 5]%Z, 2)];
     3 := [([2; 3; 5]%Z, 2)] ]}.

(** The double nearest to 0.4 *)
Definition support_0_4 : float := 0x1.999999999999ap-2%float.

(** The double nearest to 0.6 *)
Definition support_0_6 : float := 0x1.3333333333333p-1%float.

(** A run in which the third row is excluded while level 2 is counted and
    the loop goes on to level 3: the loop states at the tests for [k = 2],
    [k = 3] and [k = 4]. *)
Definition mask_example_rows : list (list Z) := [[1; 2; 3]; [1; 2; 3]; [4]]%Z.

Definition mask_example_state2 : loop_state :=
  LoopState {[ 1 := [([1]%Z, 2); ([2]%Z, 2); ([3]%Z, 2); ([4]%Z, 1)] ]} 2 ∅.

Definition mask_example_state3 : loop_state :=
  LoopState {[ 1 := [([1]%Z, 2); ([2]%Z, 2); ([3]%Z, 2); ([4]%Z, 1)];
               2 := [([1; 2]%Z, 2); ([1; 3]%Z, 2); ([2; 3]%Z, 2)] ]}
            3 {[ 2 := false ]}.

Definition mask_example_state4 : loop_state :=
  LoopState {[ 1 := [([1]%Z, 2); ([2]%Z, 2); ([3]%Z, 2); ([4]%Z, 1)];
               2 := [([1; 2]%Z, 2); ([1; 3]%Z, 2); ([2; 3]%Z, 2)];
               3 := [([1; 2; 3]%Z, 2)] ]}
            4 {[ 2 := false ]}.

(** Every level of a mapping meets the contract of [join_step]: this is
    "the invariant when joining/pruning" that the sorting in STEP 2 keeps. *)
Definition sorted_levels (m : gmap nat (list (list Z * nat))) : Prop :=
  ∀ j lvl, m !! j = Some lvl → sorted_level j lvl.*1.

(** An itemset that occurs in some transaction and passes the test
    [(c / num_transactions) >= min_support] with its support count. *)
Definition frequent (rows : list (list Z)) (n : nat) (ms : float) (S : list Z) : Prop :=
  0 < support_count rows S ∧ ge_support ms (support_count rows S) n = true.

(** The threshold test does not turn false when the count grows (up to the
    number of transactions). *)
Definition threshold_monotone (ms : float) (n : nat) : Prop :=
  ∀ c c', c ≤ c' → c' ≤ n → ge_support ms c n = true → ge_support ms c' n = true.

(** Two transactions with the same items. *)
Definition same_items (t t' : list Z) : Prop := ∀ i, i ∈ t ↔ i ∈ t'.

(** Every frequent, strictly increasing itemset shorter than the level the
    loop is about to build is stored, with its support count. *)
Definition complete_below (rows : list (list Z)) (n : nat) (ms : float)
    (st : loop_state) : Prop :=
  ∀ S, Sorted Z.lt S → 1 ≤ length S < level_k st → frequent rows n ms S →
       ∃ lvl, large_itemsets st !! length S = Some lvl
              ∧ (S, support_count rows S) ∈ lvl.

(** * Properties *)

(** ** Concrete runs *)

Example join_step_paper :
  join_step [[1;2;3]; [1;2;4]; [1;3;4]; [1;3;5]; [2;3;4]]%Z
  = Ok [[1;2;3;4]; [1;3;4;5]]%Z.
Proof. vm_compute. reflexivity. Qed.

Example apriori_gen_paper :
  apriori_gen [[1;2;3]; [1;2;4]; [1;3;4]; [1;3;5]; [2;3;4]]%Z
  = Ok [[1;2;3;4]]%Z.
Proof. vm_compute. reflexivity. Qed.

(** ** Sorting and dictionaries *)

Lemma py_sorted_perm `{PyOrd A} (l : list A) : py_sorted l ≡ₚ l.
Proof. apply merge_sort_Permutation. Qed.

Lemma elem_of_py_sorted `{PyOrd A} (l : list A) x : x ∈ py_sorted l ↔ x ∈ l.
Proof. by rewrite py_sorted_perm. Qed.

Lemma dict_set_fresh `{EqDecision K} {V} (k : K) (v : V) d :
  k ∉ d.*1 → dict_set k v d = d ++ [(k, v)].
Proof.
  induction d as [|[k' v'] d IH]; simpl; [done|].
  rewrite not_elem_of_cons. intros [Hne Hnin].
  destruct (decide (k = k')) as [->|_]; [done|]. by rewrite IH.
Qed.

Lemma dict_of_pairs_from `{EqDecision K} {V} (l acc : list (K * V)) :
  NoDup (acc ++ l).*1 →
  foldl (λ d kv, dict_set kv.1 kv.2 d) acc l = acc ++ l.
Proof.
  revert acc. induction l as [|[k v] l IH]; intros acc Hnd; simpl.
  - by rewrite app_nil_r.
  - rewrite dict_set_fresh.
    + rewrite (IH (acc ++ [(k, v)])); by rewrite <-app_assoc.
    + rewrite fmap_app in Hnd. apply NoDup_app in Hnd as (_ & Hdisj & _).
      intros Hin. apply (Hdisj k Hin). simpl. left.
Qed.

Lemma dict_of_pairs_nodup `{EqDecision K} {V} (l : list (K * V)) :
  NoDup l.*1 → dict_of_pairs l = l.
Proof. intros Hnd. unfold dict_of_pairs. by rewrite dict_of_pairs_from. Qed.

Lemma cnt_incr_eq `{EqDecision K} (k : K) d : cnt k (dict_incr k d) = S (cnt k d).
Proof.
  induction d as [|[k' c] d IH]; simpl.
  - by rewrite decide_True.
  - destruct (decide (k = k')) as [->|Hne]; simpl.
    + by rewrite decide_True.
    + by rewrite decide_False.
Qed.

Lemma cnt_incr_ne `{EqDecision K} (k k0 : K) d :
  k0 ≠ k → cnt k0 (dict_incr k d) = cnt k0 d.
Proof.
  intros Hne. induction d as [|[k' c] d IH]; simpl.
  - by rewrite decide_False.
  - destruct (decide (k = k')) as [->|Hne']; simpl.
    + by destruct (decide (k0 = k')).
    + by rewrite IH.
Qed.

Lemma cnt_incr `{EqDecision K} (k k0 : K) d :
  cnt k0 (dict_incr k d) = cnt k0 d + (if decide (k0 = k) then 1 else 0).
Proof.
  destruct (decide (k0 = k)) as [->|Hne].
  - rewrite cnt_incr_eq. lia.
  - rewrite cnt_incr_ne by done. lia.
Qed.

Lemma dict_incr_keys `{EqDecision K} (k k0 : K) d :
  k0 ∈ (dict_incr k d).*1 ↔ k0 = k ∨ k0 ∈ d.*1.
Proof.
  induction d as [|[k' c] d IH]; simpl.
  - rewrite list_elem_of_singleton, elem_of_nil. naive_solver.
  - destruct (decide (k = k')) as [->|Hne]; simpl;
      rewrite !elem_of_cons; [|rewrite IH]; naive_solver.
Qed.

Lemma dict_incr_wf `{EqDecision K} (k : K) d : dict_wf d → dict_wf (dict_incr k d).
Proof.
  intros [Hnd Hpos]. induction d as [|[k' c] d IH]; simpl.
  - split; [apply NoDup_singleton|]. intros ?? [= _ ->]%list_elem_of_singleton. lia.
  - apply NoDup_cons in Hnd as [Hnin Hnd].
    assert (Hpos' : ∀ k c, (k, c) ∈ d → 0 < c) by (intros; eapply Hpos; by right).
    destruct (decide (k = k')) as [->|Hne].
    + split; [by constructor|]. intros k0 c0 [[= -> ->]|Hin]%elem_of_cons; [lia|eauto].
    + destruct (IH Hnd Hpos') as [Hnd' Hpos''].
      split.
      * simpl. constructor; [|done]. rewrite dict_incr_keys. naive_solver.
      * intros k0 c0 [[= -> ->]|Hin]%elem_of_cons; [|eauto].
        eapply Hpos. left.
Qed.

Lemma dict_wf_elem `{EqDecision K} (d : list (K * nat)) k c :
  dict_wf d → (k, c) ∈ d ↔ c = cnt k d ∧ 0 < c.
Proof.
  intros [Hnd Hpos]. induction d as [|[k' c'] d IH]; simpl.
  - split; [by intros ?%elem_of_nil|lia].
  - apply NoDup_cons in Hnd as [Hnin Hnd].
    assert (Hpos' : ∀ k c, (k, c) ∈ d → 0 < c) by (intros; eapply Hpos; by right).
    specialize (IH Hnd Hpos').
    destruct (decide (k = k')) as [->|Hne].
    + split.
      * intros [[= ->]|Hin]%elem_of_cons.
        -- split; [done|]. eapply Hpos. left.
        -- exfalso. apply Hnin. apply list_elem_of_fmap. by exists (k', c).
      * intros [-> _]. left.
    + rewrite elem_of_cons, IH. naive_solver.
Qed.

Lemma dict_wf_nil `{EqDecision K} : dict_wf (K := K) [].
Proof. split; [constructor|]. by intros ?? ?%elem_of_nil. Qed.

Lemma dict_wf_filter `{EqDecision K} (P : K * nat → Prop) `{∀ x, Decision (P x)} d :
  dict_wf d → dict_wf (filter P d).
Proof.
  intros [Hnd Hpos]. split.
  - eapply sublist_NoDup; [exact Hnd|]. apply fmap_sublist, sublist_filter.
  - intros k c [_ ?]%list_elem_of_filter. eauto.
Qed.

Lemma dict_wf_perm `{EqDecision K} (d d' : list (K * nat)) :
  d ≡ₚ d' → dict_wf d → dict_wf d'.
Proof.
  intros Hp [Hnd Hpos]. split.
  - by rewrite <-Hp.
  - intros k c Hin. rewrite <-Hp in Hin. eauto.
Qed.

(** ** Counting candidates in the transactions *)

Lemma subset_py_set (c t : list Z) : py_set c ⊆ t ↔ c ⊆ t.
Proof.
  unfold py_set. split; intros Hsub x Hx; apply Hsub.
  - by rewrite elem_of_remove_dups.
  - by rewrite elem_of_remove_dups in Hx.
Qed.

Lemma matches_cons (c0 : list Z) C t c :
  matches (c0 :: C) t c
  = (if decide (c0 = c ∧ c0 ⊆ t) then 1 else 0) + matches C t c.
Proof. unfold matches. rewrite filter_cons. by destruct (decide _). Qed.

Lemma matches_pos C t c : 0 < matches C t c → c ∈ C ∧ c ⊆ t.
Proof.
  induction C as [|c0 C IH]; [unfold matches; simpl; lia|].
  rewrite matches_cons. case_decide as Hd; [destruct Hd as [-> ?]|].
  - intros _. split; [left|done].
  - intros [? ?]%IH. split; [by right|done].
Qed.

Lemma matches_nodup C t c :
  NoDup C → matches C t c = if decide (c ∈ C ∧ c ⊆ t) then 1 else 0.
Proof.
  induction 1 as [|c0 C Hnin Hnd IH].
  - rewrite decide_False; [done|]. by intros [?%elem_of_nil _].
  - rewrite matches_cons, IH.
    destruct (decide (c0 = c ∧ c0 ⊆ t)) as [[-> Hsub]|Hn1].
    + rewrite (decide_False (P := c ∈ C ∧ _)) by naive_solver.
      rewrite decide_True; [done|]. split; [left|done].
    + destruct (decide (c ∈ C ∧ c ⊆ t)) as [[Hin Hsub]|Hn2].
      * rewrite decide_True; [done|]. split; [by right|done].
      * rewrite decide_False; [done|]. rewrite elem_of_cons. naive_solver.
Qed.

Lemma count_matches_cons c0 C t acc :
  count_matches (c0 :: C) (py_set <$> c0 :: C) t acc
  = count_matches C (py_set <$> C) t (count_match t acc (c0, py_set c0)).
Proof. done. Qed.

Lemma count_matches_spec C t acc :
  let r := count_matches C (py_set <$> C) t acc in
  (dict_wf acc.1 → dict_wf r.1)
  ∧ (∀ c, cnt c r.1 = cnt c acc.1 + matches C t c)
  ∧ (r.2 = true ↔ acc.2 = true ∨ ∃ c, c ∈ C ∧ c ⊆ t)
  ∧ ((∀ c, c ∈ C → ¬ c ⊆ t) → r = acc).
Proof.
  revert acc. induction C as [|c0 C IH]; intros acc.
  - change (count_matches [] (py_set <$> []) t acc) with acc. cbv zeta.
    split_and!; [done| | |done].
    + intros c. change (matches [] t c) with 0. lia.
    + split; [by left|]. intros [?|(c & ?%elem_of_nil & _)]; done.
  - rewrite count_matches_cons.
    destruct (IH (count_match t acc (c0, py_set c0))) as (IHwf & IHcnt & IHfound & IHnone).
    cbv zeta. revert IHwf IHcnt IHfound IHnone.
    generalize (count_matches C (py_set <$> C) t (count_match t acc (c0, py_set c0))).
    intros r. unfold count_match, issubset. simpl.
    destruct (decide (py_set c0 ⊆ t)) as [Hsub|Hsub];
      rewrite subset_py_set in Hsub; simpl; intros IHwf IHcnt IHfound IHnone.
    + split_and!.
      * intros Hwf. by apply IHwf, dict_incr_wf.
      * intros c. rewrite IHcnt, cnt_incr, matches_cons.
        destruct (decide (c = c0)) as [->|Hne].
        -- rewrite decide_True by done. lia.
        -- rewrite decide_False by naive_solver. lia.
      * rewrite IHfound. split; [intros _|by left].
        right. exists c0. split; [left|done].
      * intros Hno. exfalso. apply (Hno c0); [left|done].
    + split_and!.
      * done.
      * intros c. rewrite IHcnt, matches_cons.
        rewrite decide_False by naive_solver. lia.
      * rewrite IHfound. split; [|].
        -- intros [?|(c & Hc & ?)]; [by left|]. right. exists c. split; [by right|done].
        -- intros [?|(c & [->|Hc]%elem_of_cons & ?)]; [by left|done|].
           right. by exists c.
      * intros Hno. apply IHnone. intros c Hc. apply Hno. by right.
Qed.

Lemma count_candidates_all_from C rows acc :
  let r := foldl (count_row_all C (py_set <$> C)) acc rows in
  (dict_wf acc → dict_wf r)
  ∧ ∀ c, cnt c r = cnt c acc + sum_list ((λ t, matches C t c) <$> rows).
Proof.
  revert acc. induction rows as [|t rows IH]; intros acc; csimpl.
  - split; [done|]. intros c. lia.
  - destruct (IH (count_row_all C (py_set <$> C) acc t)) as [IHwf IHcnt].
    destruct (count_matches_spec C t (acc, false)) as (Hwf & Hcnt & _ & _).
    split.
    + intros Hacc. apply IHwf. unfold count_row_all. by apply Hwf.
    + intros c. rewrite IHcnt. unfold count_row_all. rewrite Hcnt. simpl. lia.
Qed.

Lemma count_candidates_all_wf C rows : dict_wf (count_candidates_all C rows).
Proof. apply count_candidates_all_from, dict_wf_nil. Qed.

Lemma sum_matches_pos C rows c :
  0 < sum_list ((λ t, matches C t c) <$> rows) → c ∈ C ∧ ∃ t, t ∈ rows ∧ c ⊆ t.
Proof.
  induction rows as [|t rows IH]; csimpl; [lia|].
  destruct (decide (0 < matches C t c)) as [Hpos|Hz].
  - intros _. apply matches_pos in Hpos as [? ?]. split; [done|].
    exists t. split; [left|done].
  - intros Hsum. destruct IH as (? & t' & ? & ?); [lia|].
    split; [done|]. exists t'. split; [by right|done].
Qed.

Lemma sum_matches_nodup C rows c :
  NoDup C →
  sum_list ((λ t, matches C t c) <$> rows)
  = if decide (c ∈ C) then support_count rows c else 0.
Proof.
  intros Hnd. unfold support_count.
  induction rows as [|t rows IH]; csimpl; [by destruct (decide (c ∈ C))|].
  rewrite IH, matches_nodup by done. rewrite filter_cons.
  destruct (decide (c ∈ C)) as [Hin|Hnin].
  - destruct (decide (c ⊆ t)).
    + by rewrite decide_True.
    + by rewrite decide_False by naive_solver.
  - by rewrite decide_False by naive_solver.
Qed.

Lemma count_candidates_all_elem C rows c n :
  (c, n) ∈ count_candidates_all C rows →
  c ∈ C ∧ (∃ t, t ∈ rows ∧ c ⊆ t) ∧ 0 < n
  ∧ (NoDup C → n = support_count rows c).
Proof.
  intros Hin.
  apply (dict_wf_elem _ _ _ (count_candidates_all_wf C rows)) in Hin as [Hn Hpos].
  unfold count_candidates_all in Hn.
  destruct (count_candidates_all_from C rows []) as [_ Hcnt].
  rewrite Hcnt in Hn. simpl in Hn.
  destruct (sum_matches_pos C rows c) as [HC Hrow]; [lia|].
  split_and!; [done..|].
  intros Hnd. rewrite sum_matches_nodup in Hn by done.
  by rewrite decide_True in Hn.
Qed.

Lemma count_candidates_all_complete C rows c :
  NoDup C → c ∈ C → 0 < support_count rows c →
  (c, support_count rows c) ∈ count_candidates_all C rows.
Proof.
  intros Hnd HC Hpos.
  apply (dict_wf_elem _ _ _ (count_candidates_all_wf C rows)).
  split; [|done]. unfold count_candidates_all.
  destruct (count_candidates_all_from C rows []) as [_ Hcnt].
  rewrite Hcnt, sum_matches_nodup by done. by rewrite decide_True.
Qed.

Lemma enumerate_snoc {A} (l : list A) x :
  enumerate (l ++ [x]) = enumerate l ++ [(length l, x)].
Proof.
  unfold enumerate. rewrite length_app, seq_app. simpl.
  rewrite zip_with_app by by rewrite length_seq. done.
Qed.

Lemma mask_get_insert use row row' :
  mask_get (<[row := false]> use) row'
  = if decide (row = row') then false else mask_get use row'.
Proof.
  unfold mask_get. destruct (decide (row = row')) as [->|Hne].
  - by rewrite lookup_insert_eq.
  - by rewrite lookup_insert_ne.
Qed.

Lemma mask_sound_prefix C rows t use :
  mask_sound C (rows ++ [t]) use → mask_sound C rows use.
Proof.
  intros Hs row t' Hrow. apply Hs. by apply lookup_app_l_Some.
Qed.

Lemma count_candidates_spec C rows use :
  let r := count_candidates C rows use in
  (∀ row, length rows ≤ row → mask_get r.2 row = mask_get use row)
  ∧ (∀ row, mask_get use row = false → mask_get r.2 row = false)
  ∧ (∀ row t, rows !! row = Some t → mask_get r.2 row = false →
       mask_get use row = false ∨ ∀ c, c ∈ C → ¬ c ⊆ t)
  ∧ (mask_sound C rows use → r.1 = count_candidates_all C rows).
Proof.
  induction rows as [|t rows IH] using rev_ind.
  - simpl. split_and!; [done|done| |done]. intros row t. by rewrite lookup_nil.
  - destruct IH as (IHge & IHmono & IHnew & IHeq).
    unfold count_candidates, count_candidates_all in *.
    rewrite enumerate_snoc, !foldl_snoc. cbv zeta in *.
    revert IHge IHmono IHnew IHeq.
    generalize (foldl (count_row C (py_set <$> C)) ([], use) (enumerate rows)).
    intros r0 IHge IHmono IHnew IHeq.
    destruct (count_matches_spec C t (r0.1, false)) as (_ & _ & Hfound & Hnone).
    unfold count_row at 1 2 3 4. simpl.
    destruct (mask_get r0.2 (length rows)) eqn:Hm; simpl.
    + destruct ((count_matches C (py_set <$> C) t (r0.1, false)).2) eqn:Hf; simpl.
      * split_and!.
        -- intros row Hrow. rewrite length_app in Hrow. simpl in Hrow.
           apply IHge. lia.
        -- done.
        -- intros row t' [Hl|[Hr ?]]%lookup_app_Some Hfalse; [eauto|].
           apply list_lookup_singleton_Some in H as [Hz ->].
           assert (row = length rows) as -> by lia. congruence.
        -- intros Hs. unfold count_row_all.
           by rewrite IHeq by by eapply mask_sound_prefix.
      * split_and!.
        -- intros row Hrow. rewrite length_app in Hrow. simpl in Hrow.
           rewrite mask_get_insert, decide_False by lia. apply IHge. lia.
        -- intros row Hrow. rewrite mask_get_insert. case_decide; eauto.
        -- intros row t' [Hl|[Hr ?]]%lookup_app_Some; rewrite mask_get_insert.
           ++ apply lookup_lt_Some in Hl as Hlt.
              rewrite decide_False by lia. eauto.
           ++ apply list_lookup_singleton_Some in H as [Hz ->].
              intros _. right. intros c Hc Hsub.
              assert (false = true); [|done].
              apply Hfound. right. by exists c.
        -- intros Hs. unfold count_row_all.
           by rewrite IHeq by by eapply mask_sound_prefix.
    + split_and!.
      * intros row Hrow. rewrite length_app in Hrow. simpl in Hrow.
        apply IHge. lia.
      * done.
      * intros row t' [Hl|[Hr ?]]%lookup_app_Some Hfalse; [eauto|].
        apply list_lookup_singleton_Some in H as [Hz ->].
        assert (row = length rows) as -> by lia.
        left. by rewrite <-IHge.
      * intros Hs. rewrite <-IHeq by by eapply mask_sound_prefix.
        unfold count_row_all. rewrite Hnone; [done|].
        eapply (Hs (length rows) t).
        -- by rewrite lookup_app_r, Nat.sub_diag.
        -- by rewrite <-IHge.
Qed.

(** ** [join_step] *)

Lemma unpack_last_snoc p a : unpack_last (p ++ [a]) = Ok (p, a).
Proof. unfold unpack_last. by rewrite last_snoc, removelast_last. Qed.

Lemma unpack_last_Ok t p : unpack_last t = Ok p → t = p.1 ++ [p.2].
Proof.
  unfold unpack_last. destruct (last t) as [x|] eqn:Hl; [|done].
  apply last_Some in Hl as [t' ->]. rewrite removelast_last. by intros [= <-].
Qed.

Lemma unpack_last_nonempty t : t ≠ [] → ∃ p, unpack_last t = Ok p.
Proof.
  intros [x Hl]%last_is_Some. unfold unpack_last. rewrite Hl. eauto.
Qed.

Lemma scan_block_spec first following tails :
  scan_block first following = Ok tails →
  (λ a, first ++ [a]) <$> tails = take (length tails) following.
Proof.
  revert tails. induction following as [|t following IH]; intros tails; simpl.
  - by intros [= <-].
  - destruct (unpack_last t) as [p|] eqn:Hp; simpl; [|done].
    apply unpack_last_Ok in Hp as ->.
    destruct (decide (first = p.1)) as [->|_]; [|by intros [= <-]].
    destruct (scan_block p.1 following) as [tails'|] eqn:Hs; simpl; [|done].
    intros [= <-]. csimpl. by rewrite (IH tails').
Qed.

Lemma scan_block_total first following :
  Forall (λ t, t ≠ []) following → ∃ tails, scan_block first following = Ok tails.
Proof.
  induction 1 as [|t following Ht _ [tails IH]]; simpl; [eauto|].
  destruct (unpack_last_nonempty t Ht) as [p ->]. simpl.
  destruct (decide (first = p.1)); [|eauto]. rewrite IH. simpl. eauto.
Qed.

Lemma combinations2_elem l a b :
  (a, b) ∈ combinations2 l → ∃ l1 l2 l3, l = l1 ++ a :: l2 ++ b :: l3.
Proof.
  induction l as [|x l IH]; simpl; [by intros ?%elem_of_nil|].
  intros [Hin|Hin]%elem_of_app.
  - apply list_elem_of_fmap in Hin as (y & [= -> ->] & Hy).
    apply list_elem_of_split in Hy as (l2 & l3 & ->). by exists [], l2, l3.
  - destruct (IH Hin) as (l1 & l2 & l3 & ->). by exists (x :: l1), l2, l3.
Qed.

Lemma combinations2_NoDup l : NoDup l → NoDup (combinations2 l).
Proof.
  induction 1 as [|x l Hnin Hnd IH]; simpl; [constructor|].
  apply NoDup_app. split_and!; [| |done].
  - apply NoDup_fmap_2; [|done]. by intros ?? [= ->].
  - intros [a b] (y & [= -> ->] & Hy)%list_elem_of_fmap Hin.
    apply combinations2_elem in Hin as (l1 & l2 & l3 & ->).
    apply Hnin. rewrite elem_of_app, elem_of_cons. auto.
Qed.

#[local] Instance extend_inj (first : list Z) :
  Inj (=) (=) (λ ab : Z * Z, first ++ [ab.1] ++ [ab.2]).
Proof. intros [a b] [a' b'] Heq. simpl in Heq. by simplify_list_eq. Qed.

(** Every candidate of [join_step] extends a prefix [p] by the last items
    of two itemsets that occur, in this order, in the input. *)
Lemma join_while_elem fuel L i out c :
  join_while fuel L i = Ok out → c ∈ out →
  ∃ p a b l1 l2 l3,
    c = p ++ [a; b] ∧ drop i L = l1 ++ (p ++ [a]) :: l2 ++ (p ++ [b]) :: l3.
Proof.
  revert i out. induction fuel as [|fuel IH]; intros i out; simpl.
  { intros [= <-] ?%elem_of_nil. done. }
  destruct (drop i L) as [|itemset following] eqn:Hdrop.
  { intros [= <-] ?%elem_of_nil. done. }
  destruct (unpack_last itemset) as [p|] eqn:Hp; simpl; [|done].
  apply unpack_last_Ok in Hp as ->.
  destruct (scan_block p.1 following) as [tails|] eqn:Hs; simpl; [|done].
  destruct (join_while fuel L (i + S (length tails))) as [rest|] eqn:Hrest;
    simpl; [|done].
  intros [= <-]. apply scan_block_spec in Hs.
  intros [Hin|Hin]%elem_of_app.
  - apply list_elem_of_fmap in Hin as ([a b] & -> & Hab). simpl.
    rewrite elem_of_py_sorted in Hab.
    apply (combinations2_elem (p.2 :: tails)) in Hab as (t1 & t2 & t3 & Htails).
    exists p.1, a, b, ((λ a, p.1 ++ [a]) <$> t1), ((λ a, p.1 ++ [a]) <$> t2),
      (((λ a, p.1 ++ [a]) <$> t3) ++ drop (length tails) following).
    split; [done|].
    rewrite <-(take_drop (length tails) following) at 1. rewrite <-Hs.
    assert (Hblock : (p.1 ++ [p.2]) :: ((λ a, p.1 ++ [a]) <$> tails)
                     = (λ a, p.1 ++ [a]) <$> (t1 ++ a :: t2 ++ b :: t3))
      by (by rewrite <-Htails).
    rewrite app_comm_cons, Hblock.
    rewrite !fmap_app, !fmap_cons, !fmap_app, !fmap_cons.
    rewrite <-app_assoc. simpl. by rewrite <-app_assoc.
  - destruct (IH _ _ Hrest Hin) as (q & a & b & l1 & l2 & l3 & -> & Hd).
    exists q, a, b, (take (S (length tails)) (drop i L) ++ l1), l2, l3.
    split; [done|].
    rewrite <-app_assoc, <-Hd, <-drop_drop, <-Hdrop.
    by rewrite take_drop.
Qed.

Lemma join_while_total fuel L i :
  Forall (λ t, t ≠ []) L → ∃ out, join_while fuel L i = Ok out.
Proof.
  intros HL. revert i. induction fuel as [|fuel IH]; intros i; simpl; [eauto|].
  destruct (drop i L) as [|itemset following] eqn:Hdrop; [eauto|].
  assert (Hdr : Forall (λ t, t ≠ []) (itemset :: following)).
  { rewrite <-Hdrop. by apply Forall_drop. }
  apply Forall_cons in Hdr as [Hne Hfol].
  destruct (unpack_last_nonempty _ Hne) as [p ->]. simpl.
  destruct (scan_block_total p.1 _ Hfol) as [tails ->]. simpl.
  destruct (IH (i + S (length tails))) as [rest ->]. simpl. eauto.
Qed.

Lemma join_while_S fuel L i :
  join_while (S fuel) L i
  = match drop i L with
    | [] => Ok []
    | itemset :: following =>
        p ←! unpack_last itemset;
        tails ←! scan_block p.1 following;
        rest ←! join_while fuel L (i + length (p.2 :: tails));
        Ok (((λ ab : Z * Z, p.1 ++ [ab.1] ++ [ab.2])
               <$> py_sorted (combinations2 (p.2 :: tails))) ++ rest)
    end.
Proof. done. Qed.

(** Once [i] has reached the end of the list the loop has exited: the fuel
    [len(itemsets)] that [join_step] gives is never used up. *)
Lemma join_while_fuel fuel L i :
  length L ≤ i + fuel → join_while (S fuel) L i = join_while fuel L i.
Proof.
  revert i. induction fuel as [|fuel IH]; intros i Hlen.
  - simpl. by rewrite drop_ge by lia.
  - rewrite (join_while_S (S fuel)), (join_while_S fuel).
    destruct (drop i L) as [|itemset following]; [done|].
    destruct (unpack_last itemset) as [p|]; cbn [rbind]; [|done].
    destruct (scan_block p.1 following) as [tails|]; cbn [rbind]; [|done].
    rewrite IH; [done|]. simpl. lia.
Qed.

Lemma join_step_elem L out c :
  join_step L = Ok out → c ∈ out →
  ∃ p a b l1 l2 l3,
    c = p ++ [a; b] ∧ L = l1 ++ (p ++ [a]) :: l2 ++ (p ++ [b]) :: l3.
Proof. apply join_while_elem. Qed.

Lemma join_while_NoDup fuel L i out :
  NoDup L → join_while fuel L i = Ok out → NoDup out.
Proof.
  intros HL. revert i out. induction fuel as [|fuel IH]; intros i out; simpl.
  { intros [= <-]. constructor. }
  destruct (drop i L) as [|itemset following] eqn:Hdrop.
  { intros [= <-]. constructor. }
  destruct (unpack_last itemset) as [p|] eqn:Hp; simpl; [|done].
  apply unpack_last_Ok in Hp as ->.
  destruct (scan_block p.1 following) as [tails|] eqn:Hs; simpl; [|done].
  destruct (join_while fuel L (i + S (length tails))) as [rest|] eqn:Hrest;
    simpl; [|done].
  intros [= <-]. apply scan_block_spec in Hs.
  assert (Hsplit : drop i L
                   = ((λ a, p.1 ++ [a]) <$> (p.2 :: tails))
                     ++ drop (i + S (length tails)) L).
  { rewrite <-drop_drop, Hdrop, fmap_cons, Hs. simpl. by rewrite take_drop. }
  assert (Hnd : NoDup (drop i L)).
  { eapply sublist_NoDup; [exact HL|apply sublist_drop]. }
  rewrite Hsplit in Hnd. apply NoDup_app in Hnd as (Hblock & Hdisj & _).
  apply NoDup_fmap_1 in Hblock.
  apply NoDup_app. split_and!.
  - apply NoDup_fmap_2; [apply _|].
    rewrite py_sorted_perm. by apply (combinations2_NoDup (p.2 :: tails)).
  - intros c ([a b] & -> & Hab)%list_elem_of_fmap Hin. simpl in Hin.
    rewrite elem_of_py_sorted in Hab.
    apply (combinations2_elem (p.2 :: tails)) in Hab as (t1 & t2 & t3 & Htails).
    destruct (join_while_elem _ _ _ _ _ Hrest Hin)
      as (q & a' & b' & l1 & l2 & l3 & Hc & Hd).
    assert (Hc' : (p.1 ++ [a]) ++ [b] = (q ++ [a']) ++ [b'])
      by (rewrite <-!app_assoc; exact Hc).
    apply app_inj_tail in Hc' as [Hc' _]. apply app_inj_tail in Hc' as [<- <-].
    apply (Hdisj (p.1 ++ [a])).
    + apply list_elem_of_fmap. exists a. split; [done|].
      rewrite Htails, elem_of_app, elem_of_cons. auto.
    + rewrite Hd, elem_of_app, elem_of_cons. auto.
  - by eapply IH.
Qed.

(** ** Removing one item of a tuple *)

Lemma remove_at_cons i x t : remove_at (S i) (x :: t) = x :: remove_at i t.
Proof. done. Qed.

Lemma remove_at_last p a b : remove_at (S (length p)) (p ++ [a; b]) = p ++ [a].
Proof.
  induction p as [|x p IH]; [done|].
  simpl. by rewrite remove_at_cons, IH.
Qed.

Lemma remove_at_second_last p a b : remove_at (length p) (p ++ [a; b]) = p ++ [b].
Proof.
  induction p as [|x p IH]; [done|].
  simpl. by rewrite remove_at_cons, IH.
Qed.

Lemma remove_at_sublist i t : remove_at i t `sublist_of` t.
Proof.
  unfold remove_at. rewrite <-(take_drop i t) at 3.
  apply sublist_app; [done|]. replace (S i) with (i + 1) by lia.
  rewrite <-drop_drop. apply sublist_drop.
Qed.

Lemma remove_at_subseteq i t : remove_at i t ⊆ t.
Proof. intros x Hx. eapply elem_of_sublist; [exact Hx|apply remove_at_sublist]. Qed.

Lemma remove_at_length i t : i < length t → S (length (remove_at i t)) = length t.
Proof.
  intros Hi. unfold remove_at.
  rewrite length_app, length_take, length_drop. lia.
Qed.

(** ** [prune_step] and [apriori_gen] *)

Lemma elem_of_prune_step L cands c :
  c ∈ prune_step L cands ↔ passes_prune L c ∧ c ∈ cands.
Proof. apply list_elem_of_filter. Qed.

(** A candidate of [join_step] that passes the partial test of [prune_step]
    passes the full test: removing any one item gives a member of [L]. *)
Lemma join_prune_all_subsets L out c :
  join_step L = Ok out → c ∈ out → passes_prune L c →
  ∀ i, i < length c → remove_at i c ∈ L.
Proof.
  intros Hj Hc Hp i Hi.
  destruct (join_step_elem _ _ _ Hj Hc) as (p & a & b & l1 & l2 & l3 & -> & HL).
  rewrite length_app in Hi. simpl in Hi.
  destruct (decide (i < length p)) as [Hlt|Hge].
  - unfold passes_prune in Hp. rewrite Forall_forall in Hp. apply Hp.
    apply elem_of_seq. rewrite length_app. simpl. lia.
  - destruct (decide (i = length p)) as [->|Hne].
    + rewrite remove_at_second_last, HL.
      rewrite elem_of_app, elem_of_cons, elem_of_app, elem_of_cons. auto.
    + assert (i = S (length p)) as -> by lia.
      rewrite remove_at_last, HL. rewrite elem_of_app, elem_of_cons. auto.
Qed.

Lemma apriori_gen_Ok L C :
  apriori_gen L = Ok C → ∃ out, join_step L = Ok out ∧ C = prune_step L out.
Proof.
  unfold apriori_gen. destruct (join_step L) as [out|]; simpl; [|done].
  intros [= <-]. eauto.
Qed.

Lemma apriori_gen_total L :
  Forall (λ t, t ≠ []) L → ∃ C, apriori_gen L = Ok C.
Proof.
  intros HL. unfold apriori_gen, join_step.
  destruct (join_while_total (length L) L 0 HL) as [out ->]. simpl. eauto.
Qed.

(** ** STEP 1: counting single items *)

Lemma occurrences_cons t rows i :
  occurrences (t :: rows) i = length (filter (λ x, x = i) t) + occurrences rows i.
Proof. unfold occurrences. simpl. by rewrite filter_app, length_app. Qed.

Lemma count_row_items t acc :
  let r := foldl (λ counts item, dict_incr item counts) acc t in
  (dict_wf acc → dict_wf r)
  ∧ ∀ i : Z, cnt i r = cnt i acc + length (filter (λ x, x = i) t).
Proof.
  revert acc. induction t as [|x t IH]; intros acc; simpl.
  - split; [done|]. intros i. lia.
  - destruct (IH (dict_incr x acc)) as [IHwf IHcnt]. split.
    + intros Hwf. by apply IHwf, dict_incr_wf.
    + intros i. rewrite IHcnt, cnt_incr, filter_cons.
      destruct (decide (i = x)) as [->|Hne].
      * rewrite decide_True by done. simpl. lia.
      * rewrite decide_False by done. lia.
Qed.

Lemma count_items_from rows acc :
  let r := foldl (λ (st : list (Z * nat) * nat) transaction,
                    (foldl (λ counts item, dict_incr item counts) st.1 transaction,
                     S st.2)) acc rows in
  r.2 = acc.2 + length rows
  ∧ (dict_wf acc.1 → dict_wf r.1)
  ∧ ∀ i, cnt i r.1 = cnt i acc.1 + occurrences rows i.
Proof.
  revert acc. induction rows as [|t rows IH]; intros acc; simpl.
  - split_and!; [lia|done|]. intros i. unfold occurrences. simpl. lia.
  - match goal with |- context [foldl _ ?a rows] => destruct (IH a) as (IHn & IHwf & IHcnt) end.
    destruct (count_row_items t acc.1) as [Hwf Hcnt]. simpl in *.
    split_and!.
    + lia.
    + intros Hacc. by apply IHwf, Hwf.
    + intros i. rewrite IHcnt, Hcnt, occurrences_cons. lia.
Qed.

Lemma count_items_spec rows :
  (count_items rows).2 = length rows
  ∧ dict_wf (count_items rows).1
  ∧ ∀ i, cnt i (count_items rows).1 = occurrences rows i.
Proof.
  destruct (count_items_from rows ([], 0)) as (Hn & Hwf & Hcnt).
  split_and!; [done|by apply Hwf, dict_wf_nil|done].
Qed.

Lemma filter_length_mono {A} (P Q : A → Prop)
    `{∀ x, Decision (P x)} `{∀ x, Decision (Q x)} (l : list A) :
  (∀ x, x ∈ l → P x → Q x) → length (filter P l) ≤ length (filter Q l).
Proof.
  induction l as [|x l IH]; intros HPQ; [done|].
  rewrite !filter_cons.
  assert (IH' : length (filter P l) ≤ length (filter Q l)).
  { apply IH. intros y Hy. apply HPQ. by right. }
  destruct (decide (P x)) as [HP|_].
  - rewrite decide_True by (apply HPQ; [left|done]). simpl. lia.
  - destruct (decide (Q x)); simpl; lia.
Qed.

Lemma support_count_mono rows (S S' : list Z) :
  S' ⊆ S → support_count rows S ≤ support_count rows S'.
Proof.
  intros Hsub. apply filter_length_mono. intros t _ HS. by etrans.
Qed.

Lemma support_count_pos rows (S : list Z) :
  0 < support_count rows S → ∃ t, t ∈ rows ∧ S ⊆ t.
Proof.
  unfold support_count. intros Hpos.
  destruct (filter (λ t, S ⊆ t) rows) as [|t l] eqn:Hf; [simpl in Hpos; lia|].
  exists t. apply and_comm, (list_elem_of_filter (λ t, S ⊆ t)). rewrite Hf. left.
Qed.

Lemma filter_eq_length_le (t : list Z) i :
  (if decide (i ∈ t) then 1 else 0) ≤ length (filter (λ x, x = i) t).
Proof.
  induction t as [|x t IH]; [done|].
  rewrite filter_cons. destruct (decide (x = i)) as [->|Hne].
  - rewrite decide_True by left. simpl. lia.
  - destruct (decide (i ∈ t)) as [Hin|Hnin].
    + rewrite decide_True; [done|by right].
    + rewrite decide_False; [lia|]. rewrite elem_of_cons. naive_solver.
Qed.

Lemma filter_eq_length_nodup (t : list Z) i :
  NoDup t → length (filter (λ x, x = i) t) = if decide (i ∈ t) then 1 else 0.
Proof.
  induction 1 as [|x t Hnin Hnd IH]; [done|].
  rewrite filter_cons. destruct (decide (x = i)) as [->|Hne]; simpl length; rewrite IH.
  - rewrite decide_False by done. rewrite decide_True; [done|left].
  - destruct (decide (i ∈ t)) as [Hin|Hnin'].
    + rewrite decide_True; [done|by right].
    + rewrite decide_False; [lia|]. rewrite elem_of_cons. naive_solver.
Qed.

Lemma singleton_subseteq (i : Z) (t : list Z) : [i] ⊆ t ↔ i ∈ t.
Proof.
  split.
  - intros Hsub. apply Hsub. left.
  - intros Hin x ->%list_elem_of_singleton. done.
Qed.

Lemma support_count_singleton_le rows i :
  support_count rows [i] ≤ occurrences rows i.
Proof.
  induction rows as [|t rows IH]; [done|].
  rewrite occurrences_cons. unfold support_count in *. rewrite filter_cons.
  pose proof (filter_eq_length_le t i) as Hle.
  destruct (decide ([i] ⊆ t)) as [Hsub|Hn]; simpl.
  - apply singleton_subseteq in Hsub. rewrite decide_True in Hle by done. lia.
  - lia.
Qed.

Lemma support_count_singleton_nodup rows i :
  Forall NoDup rows → occurrences rows i = support_count rows [i].
Proof.
  induction 1 as [|t rows Ht _ IH]; [done|].
  rewrite occurrences_cons, IH, filter_eq_length_nodup by done.
  unfold support_count. rewrite filter_cons.
  destruct (decide (i ∈ t)) as [Hin|Hnin].
  - rewrite decide_True by by apply singleton_subseteq. done.
  - rewrite decide_False by by rewrite singleton_subseteq. done.
Qed.

(** ** The loop invariant *)

Lemma elem_of_concat (x : Z) (rows : list (list Z)) :
  x ∈ concat rows ↔ ∃ t, t ∈ rows ∧ x ∈ t.
Proof.
  rewrite list_elem_of_In, in_concat. setoid_rewrite list_elem_of_In. done.
Qed.

Lemma length_le_distinct_items rows (S : list Z) :
  NoDup S → S ⊆ concat rows → length S ≤ distinct_items rows.
Proof.
  intros Hnd Hsub. unfold distinct_items. apply submseteq_length.
  apply NoDup_submseteq; [done|]. intros x Hx.
  apply elem_of_remove_dups. by apply Hsub.
Qed.

Lemma mask_sound_join L out rows use :
  mask_sound L rows use → join_step L = Ok out → mask_sound out rows use.
Proof.
  intros Hs Hj row t Hrow Hm c Hc Hsub.
  destruct (join_step_elem _ _ _ Hj Hc) as (p & a & b & l1 & l2 & l3 & -> & HL).
  apply (Hs row t Hrow Hm (p ++ [a])).
  - rewrite HL, elem_of_app, elem_of_cons. auto.
  - intros x Hx. apply Hsub.
    rewrite elem_of_app in Hx. rewrite elem_of_app, !elem_of_cons.
    rewrite list_elem_of_singleton in Hx. naive_solver.
Qed.

Lemma mask_sound_subseteq C C' rows use :
  mask_sound C rows use → C' ⊆ C → mask_sound C' rows use.
Proof. intros Hs Hsub row t Hrow Hm c Hc. eapply Hs; eauto. Qed.

Lemma join_step_shape L out c k :
  join_step L = Ok out → c ∈ out → NoDup L →
  (∀ s, s ∈ L → length s = k ∧ NoDup s) →
  length c = S k ∧ NoDup c.
Proof.
  intros Hj Hc HL Hs.
  destruct (join_step_elem _ _ _ Hj Hc) as (p & a & b & l1 & l2 & l3 & -> & HLeq).
  destruct (Hs (p ++ [a])) as [Hlen Hnda].
  { rewrite HLeq, elem_of_app, elem_of_cons. auto. }
  destruct (Hs (p ++ [b])) as [_ Hndb].
  { rewrite HLeq, elem_of_app, elem_of_cons, elem_of_app, elem_of_cons. auto. }
  rewrite length_app in *. simpl in *. split; [lia|].
  assert (Hab : a ≠ b).
  { intros ->. rewrite HLeq in HL.
    apply NoDup_app in HL as (_ & _ & HL). apply NoDup_cons in HL as [Hnin _].
    apply Hnin. rewrite elem_of_app, elem_of_cons. auto. }
  apply NoDup_app in Hnda as (Hp & Ha & _).
  apply NoDup_app in Hndb as (_ & Hb & _).
  apply NoDup_app. split_and!; [done| |].
  - intros x Hx [->|[->|?%elem_of_nil]%elem_of_cons]%elem_of_cons; [| |done].
    + apply (Ha a Hx). left.
    + apply (Hb b Hx). left.
  - apply NoDup_cons. split; [|apply NoDup_singleton].
    by intros ->%list_elem_of_singleton.
Qed.

Lemma level_ok_insert rows n ms m j lvl k x :
  j ≤ k → level_ok rows n ms m j lvl → level_ok rows n ms (<[k := x]> m) j lvl.
Proof.
  intros Hjk (Hne & Hnd & Hel). split_and!; [done..|].
  intros S c Hin. destruct (Hel S c Hin) as (? & ? & ? & ? & ? & Hprev).
  split_and!; [done..|].
  intros Hj. destruct (Hprev Hj) as (? & prev & ? & ?).
  split; [done|]. exists prev. split; [|done].
  rewrite lookup_insert_ne by lia. done.
Qed.

(** The level installed by one run of the loop body. *)
Lemma new_level_ok rows n ms m k prev out :
  2 ≤ k → m !! (k - 1) = Some prev → level_ok rows n ms m (k - 1) prev →
  join_step prev.*1 = Ok out →
  let C' := filter (λ ic : list Z * nat, ge_support ms ic.2 n = true)
                   (count_candidates_all (prune_step prev.*1 out) rows) in
  C' ≠ [] →
  dict_of_pairs (py_sorted C') = py_sorted C'
  ∧ level_ok rows n ms (<[k := py_sorted C']> m) k (py_sorted C')
  ∧ (py_sorted C').*1 ⊆ prune_step prev.*1 out
  ∧ k ≤ distinct_items rows.
Proof.
  intros Hk Hprev (Hpne & Hpnd & Hpel) Hj C' HC'.
  assert (HL : ∀ s, s ∈ prev.*1 → length s = k - 1 ∧ NoDup s).
  { intros s ([s' c] & -> & Hin)%list_elem_of_fmap.
    destruct (Hpel s' c Hin) as (? & ? & _). done. }
  assert (Hout : NoDup out) by (by eapply join_while_NoDup).
  assert (HC : NoDup (prune_step prev.*1 out)) by (by apply NoDup_filter).
  assert (Hwf : dict_wf C').
  { apply dict_wf_filter, count_candidates_all_wf. }
  assert (Hwf' : dict_wf (py_sorted C')).
  { eapply dict_wf_perm; [|exact Hwf]. by rewrite py_sorted_perm. }
  assert (Hel : ∀ S c, (S, c) ∈ py_sorted C' →
            ge_support ms c n = true ∧ S ∈ prune_step prev.*1 out
            ∧ (∃ t, t ∈ rows ∧ S ⊆ t) ∧ 0 < c ∧ c = support_count rows S).
  { intros S c Hin. rewrite elem_of_py_sorted in Hin.
    apply list_elem_of_filter in Hin as [Hge Hin].
    apply count_candidates_all_elem in Hin as (? & ? & ? & Hc).
    split_and!; auto. }
  assert (Hshape : ∀ S c, (S, c) ∈ py_sorted C' → length S = k ∧ NoDup S).
  { intros S c Hin. destruct (Hel S c Hin) as (_ & HS & _).
    apply elem_of_prune_step in HS as [_ HS].
    destruct (join_step_shape _ _ _ (k - 1) Hj HS Hpnd HL) as [Hlen ?].
    split; [lia|done]. }
  split_and!.
  - apply dict_of_pairs_nodup, Hwf'.
  - split_and!.
    + intros Heq. apply HC'. apply Permutation_nil_r.
      by rewrite <-(py_sorted_perm C'), Heq.
    + apply Hwf'.
    + intros S c Hin. destruct (Hel S c Hin) as (? & HS & ? & ? & ?).
      destruct (Hshape S c Hin) as [Hlen HndS].
      split_and!; [done..|lia|].
      intros _. split; [done|]. exists prev. split.
      * rewrite lookup_insert_ne by lia. done.
      * intros i Hi. apply elem_of_prune_step in HS as [Hp HS].
        eapply join_prune_all_subsets; eauto. lia.
  - intros S ([S' c] & -> & Hin)%list_elem_of_fmap. by apply Hel in Hin as (_ & ? & _).
  - destruct (py_sorted C') as [|[S c] l] eqn:Hs.
    { exfalso. apply HC'. apply Permutation_nil_r. by rewrite <-(py_sorted_perm C'), Hs. }
    destruct (Hshape S c) as [<- HndS]; [left|].
    destruct (Hel S c) as (_ & _ & (t & Ht & Hsub) & _); [left|].
    apply length_le_distinct_items; [done|].
    intros x Hx. apply elem_of_concat. exists t. split; [done|]. by apply Hsub.
Qed.

(** One run of the loop body keeps the invariant, and the run with the row
    skipping disabled makes the same step. *)
Lemma level_step_inv rows n ms st st2 :
  loop_inv rows n ms st → same_levels st st2 →
  match level_step rows n ms st, level_step_all rows n ms st2 with
  | Exit r, Exit r2 => r = Ok (large_itemsets st) ∧ r2 = r
  | Continue st', Continue st2' =>
      loop_inv rows n ms st' ∧ same_levels st' st2'
      ∧ level_k st' = S (level_k st) ∧ level_k st ≤ distinct_items rows
      ∧ (∀ row, mask_get (use_transaction st) row = false →
                mask_get (use_transaction st') row = false)
  | _, _ => False
  end.
Proof.
  intros [Hk Hdom Hlev Hmask] [Hsame_m Hsame_k].
  unfold level_step, level_step_all. rewrite <-Hsame_m, <-Hsame_k.
  destruct (large_itemsets st !! (level_k st - 1)) as [prev|] eqn:Hprev.
  2: { destruct (proj2 (Hdom (level_k st - 1))) as [? Hsome]; [lia|congruence]. }
  pose proof (Hlev _ _ Hprev) as Hok. pose proof Hok as (Hne & Hnd & Hel).
  rewrite !decide_False by done.
  destruct (apriori_gen_total prev.*1) as [C HC].
  { apply Forall_forall. intros s ([s' c] & -> & Hin)%list_elem_of_fmap.
    simpl. intros ->. destruct (Hel [] c Hin) as (Hlen & _). simpl in Hlen. lia. }
  rewrite HC. apply apriori_gen_Ok in HC as (out & Hjoin & ->).
  destruct (count_candidates_spec (prune_step prev.*1 out) rows (use_transaction st))
    as (Hge & Hmono & Hnew & Heq).
  assert (Hsound : mask_sound (prune_step prev.*1 out) rows (use_transaction st)).
  { eapply mask_sound_subseteq; [eapply mask_sound_join; eauto|].
    apply list_subseteq_filter. }
  cbv zeta in *. rewrite (Heq Hsound).
  pose proof (new_level_ok rows n ms (large_itemsets st) (level_k st) prev out
                Hk Hprev Hok Hjoin) as Hnew_level.
  cbv zeta in Hnew_level.
  destruct (decide (filter (λ ic : list Z * nat, ge_support ms ic.2 n = true)
                      (count_candidates_all (prune_step prev.*1 out) rows) = []))
    as [Hnil|Hcons]; [done|].
  destruct (Hnew_level Hcons) as (Hdict & Hlvl & Hkeys & Hbound).
  rewrite Hdict. split_and!; [|done|done|done|done].
  split; simpl.
  - lia.
  - intros j. rewrite lookup_insert_is_Some', Hdom. lia.
  - intros j lvl [[<- <-]|[Hjk Hj]]%lookup_insert_Some; [done|].
    apply level_ok_insert; [|by apply Hlev].
    assert (1 ≤ j < level_k st) by (by apply Hdom). lia.
  - intros lvl. rewrite Nat.sub_0_r, lookup_insert_eq. intros [= <-].
    intros row t Hrow Hm c Hc.
    destruct (Hnew row t Hrow Hm) as [Hold|Hno].
    + eapply Hsound; eauto.
    + apply Hno. by apply Hkeys.
Qed.

(** ** The level-wise loop *)

Lemma level_loop_eq_all fuel rows n ms st st2 :
  loop_inv rows n ms st → same_levels st st2 →
  level_loop fuel rows n ms st = level_loop_all fuel rows n ms st2.
Proof.
  revert st st2. induction fuel as [|fuel IH]; intros st st2 Hinv Hsame; [done|].
  simpl. pose proof (level_step_inv rows n ms st st2 Hinv Hsame) as Hstep.
  destruct (level_step rows n ms st) as [st'|r],
           (level_step_all rows n ms st2) as [st2'|r2]; try done.
  - destruct Hstep as (? & ? & _). by apply IH.
  - by destruct Hstep as [_ ->].
Qed.

Lemma level_loop_more_fuel fuel fuel' rows n ms st r :
  fuel ≤ fuel' → level_loop fuel rows n ms st = Some r →
  level_loop fuel' rows n ms st = Some r.
Proof.
  revert fuel' st. induction fuel as [|fuel IH]; intros fuel' st Hle; [done|].
  destruct fuel' as [|fuel']; [lia|]. simpl.
  destruct (level_step rows n ms st) as [st'|r']; [|done].
  apply IH. lia.
Qed.

Lemma level_loop_result fuel rows n ms st r :
  loop_inv rows n ms st → level_loop fuel rows n ms st = Some r →
  ∃ st', loop_inv rows n ms st' ∧ r = Ok (large_itemsets st').
Proof.
  revert st. induction fuel as [|fuel IH]; intros st Hinv; [done|].
  simpl. pose proof (level_step_inv rows n ms st st Hinv (conj eq_refl eq_refl)) as Hstep.
  destruct (level_step rows n ms st) as [st'|r'],
           (level_step_all rows n ms st) as [st2'|r2]; try done.
  - destruct Hstep as (? & _). by apply IH.
  - destruct Hstep as [-> _]. intros [= <-]. eauto.
Qed.

(** The loop exits within [distinct_items rows] runs of its body: a level
    [k] is installed only when some transaction holds [k] distinct items. *)
Lemma level_loop_terminates fuel rows n ms st :
  loop_inv rows n ms st →
  1 ≤ fuel → distinct_items rows + 2 ≤ fuel + level_k st →
  ∃ r, level_loop fuel rows n ms st = Some r.
Proof.
  revert st. induction fuel as [|fuel IH]; intros st Hinv Hpos Hfuel; [lia|].
  simpl. pose proof (level_step_inv rows n ms st st Hinv (conj eq_refl eq_refl)) as Hstep.
  destruct (level_step rows n ms st) as [st'|r'],
           (level_step_all rows n ms st) as [st2'|r2]; try done; [|eauto].
  destruct Hstep as (Hinv' & _ & Hk' & Hbound & _).
  apply IH; [done|lia|lia].
Qed.

Lemma level_step_mask rows n ms st st' :
  level_step rows n ms st = Continue st' →
  level_k st' = S (level_k st)
  ∧ ∀ row, mask_get (use_transaction st) row = false →
           mask_get (use_transaction st') row = false.
Proof.
  unfold level_step.
  destruct (large_itemsets st !! (level_k st - 1)) as [prev|]; [|done].
  destruct (decide (prev = [])); [done|].
  destruct (apriori_gen prev.*1) as [C|]; [|done]. cbv zeta.
  destruct (decide _); [done|]. intros [= <-]. simpl. split; [done|].
  apply count_candidates_spec.
Qed.

Lemma state_after_mask j rows n ms st st' :
  state_after j rows n ms st = Some st' →
  level_k st' = level_k st + j
  ∧ ∀ row, mask_get (use_transaction st) row = false →
           mask_get (use_transaction st') row = false.
Proof.
  revert st. induction j as [|j IH]; intros st; simpl.
  - intros [= <-]. split; [lia|done].
  - destruct (level_step rows n ms st) as [st1|] eqn:Hstep; [|done].
    apply level_step_mask in Hstep as [Hk Hmono].
    intros [Hk' Hmono']%IH. split; [lia|]. auto.
Qed.

(** ** STEPs 1 and 2 *)

Lemma initial_inv rows ms :
  let large := filter (λ ic : Z * nat, ge_support ms ic.2 (length rows) = true)
                      (count_items rows).1 in
  let level1 := (λ ic : Z * nat, ([ic.1], ic.2)) <$> py_sorted large in
  large ≠ [] →
  dict_of_pairs level1 = level1
  ∧ loop_inv rows (length rows) ms (LoopState {[ 1 := level1 ]} 2 ∅).
Proof.
  intros large level1 Hne.
  destruct (count_items_spec rows) as (_ & Hwf & Hcnt).
  assert (Hwfl : dict_wf (py_sorted large)).
  { eapply dict_wf_perm; [by rewrite py_sorted_perm|]. by apply dict_wf_filter. }
  assert (Hkeys : level1.*1 = (λ i : Z, [i]) <$> (py_sorted large).*1).
  { unfold level1. rewrite <-!list_fmap_compose. done. }
  assert (Hnd : NoDup level1.*1).
  { rewrite Hkeys. apply NoDup_fmap_2; [|apply Hwfl]. by intros ?? [= ->]. }
  split; [by apply dict_of_pairs_nodup|].
  split; simpl.
  - lia.
  - intros j. rewrite lookup_singleton. case_decide; subst.
    + split; [lia|eauto].
    + split; [by intros [? ?]|lia].
  - intros j lvl [<- <-]%lookup_singleton_Some. split_and!; [|done|].
    + intros Heq%fmap_nil_inv. apply Hne. apply Permutation_nil_r.
      by rewrite <-(py_sorted_perm large), Heq.
    + intros S c ([i c'] & [= -> ->] & Hin)%list_elem_of_fmap. simpl.
      rewrite elem_of_py_sorted in Hin.
      apply list_elem_of_filter in Hin as [Hge Hin].
      apply (dict_wf_elem _ _ _ Hwf) in Hin as [-> Hpos].
      split_and!; [done|apply NoDup_singleton|done|done| |lia].
      intros _. exists i. by rewrite Hcnt.
  - intros prev _ row t _ Hm. unfold mask_get in Hm. by rewrite lookup_empty in Hm.
Qed.

Lemma mine_unfold fuel rows ms :
  mine fuel rows ms
  = let large := filter (λ ic : Z * nat, ge_support ms ic.2 (length rows) = true)
                        (count_items rows).1 in
    if decide (large = []) then Some (Ok (∅, length rows))
    else
      r ← level_loop fuel rows (length rows) ms
            (LoopState {[ 1 := (λ ic : Z * nat, ([ic.1], ic.2)) <$> py_sorted large ]} 2 ∅);
      Some (levels ←! r; Ok (levels, length rows)).
Proof.
  unfold mine. pose proof (initial_inv rows ms) as Hinit.
  destruct (count_items_spec rows) as (Hn & _).
  destruct (count_items rows) as [counts n]. simpl in *. subst n.
  destruct (decide _) as [|Hne]; [done|].
  by destruct (Hinit Hne) as [-> _].
Qed.

Lemma mine_all_unfold fuel rows ms :
  mine_all fuel rows ms
  = let large := filter (λ ic : Z * nat, ge_support ms ic.2 (length rows) = true)
                        (count_items rows).1 in
    if decide (large = []) then Some (Ok (∅, length rows))
    else
      r ← level_loop_all fuel rows (length rows) ms
            (LoopState {[ 1 := (λ ic : Z * nat, ([ic.1], ic.2)) <$> py_sorted large ]} 2 ∅);
      Some (levels ←! r; Ok (levels, length rows)).
Proof.
  unfold mine_all. pose proof (initial_inv rows ms) as Hinit.
  destruct (count_items_spec rows) as (Hn & _).
  destruct (count_items rows) as [counts n]. simpl in *. subst n.
  destruct (decide _) as [|Hne]; [done|].
  by destruct (Hinit Hne) as [-> _].
Qed.

Lemma mine_eq_all fuel rows ms : mine fuel rows ms = mine_all fuel rows ms.
Proof.
  rewrite mine_unfold, mine_all_unfold. cbv zeta.
  destruct (decide _) as [|Hne]; [done|].
  destruct (initial_inv rows ms Hne) as [_ Hinv].
  by rewrite (level_loop_eq_all fuel _ _ _ _ _ Hinv (conj eq_refl eq_refl)).
Qed.

Lemma mine_more_fuel fuel fuel' rows ms r :
  fuel ≤ fuel' → mine fuel rows ms = Some r → mine fuel' rows ms = Some r.
Proof.
  intros Hle. rewrite !mine_unfold. cbv zeta.
  destruct (decide _) as [|Hne]; [done|].
  destruct (level_loop fuel _ _ _ _) as [r0|] eqn:Hloop; [|done].
  by rewrite (level_loop_more_fuel _ _ _ _ _ _ _ Hle Hloop).
Qed.

(** What [mine] returns: never an exception; the number of rows; and either
    the empty mapping or the mapping of a loop state with the invariant. *)
Lemma mine_result fuel rows ms r :
  mine fuel rows ms = Some r →
  ∃ m, r = Ok (m, length rows)
       ∧ (m = ∅ ∨ ∃ st, loop_inv rows (length rows) ms st ∧ m = large_itemsets st).
Proof.
  rewrite mine_unfold. cbv zeta.
  destruct (decide _) as [|Hne].
  - intros [= <-]. exists ∅. split; [done|by left].
  - destruct (initial_inv rows ms Hne) as [_ Hinv].
    destruct (level_loop fuel _ _ _ _) as [r0|] eqn:Hloop; [|done].
    destruct (level_loop_result _ _ _ _ _ _ Hinv Hloop) as (st & Hst & ->).
    intros [= <-]. exists (large_itemsets st). split; [done|]. right. eauto.
Qed.

Lemma mine_terminates fuel rows ms :
  distinct_items rows < fuel → ∃ r, mine fuel rows ms = Some r.
Proof.
  intros Hfuel. rewrite mine_unfold. cbv zeta.
  destruct (decide _) as [|Hne]; [eauto|].
  destruct (initial_inv rows ms Hne) as [_ Hinv].
  destruct (level_loop_terminates fuel _ _ _ _ Hinv) as [r ->]; simpl; [lia|lia|eauto].
Qed.

Lemma mine_nil fuel ms : mine fuel [] ms = Some (Ok (∅, 0)).
Proof. done. Qed.

(** ** The whole function *)

Lemma sanitize_accepted t x rows :
  accepted_rows t = Some rows → in_unit_interval x →
  (sanitize t (Number x)).2 = Ok (rows, x).
Proof.
  intros Hacc [H0 H1]. unfold sanitize.
  destruct t as [ts|[ts|ts|]|]; simplify_eq/=; by rewrite H0, H1.
Qed.

Lemma sanitize_Ok t ms rows x :
  (sanitize t ms).2 = Ok (rows, x) →
  accepted_rows t = Some rows ∧ ms = Number x ∧ in_unit_interval x.
Proof.
  unfold sanitize, in_unit_interval.
  destruct t as [ts|[ts|ts|]|], ms as [y| |]; simpl; try done;
    destruct (PrimFloat.leb 0 y) eqn:H0, (PrimFloat.leb y 1) eqn:H1; simpl; try done;
    by intros [= <- <-].
Qed.

Lemma itemsets_accepted fuel t x rows :
  accepted_rows t = Some rows → in_unit_interval x →
  itemsets_from_transactions fuel t (Number x) = mine fuel rows x.
Proof.
  intros Hacc Hx. unfold itemsets_from_transactions.
  by rewrite (sanitize_accepted t x rows).
Qed.

Lemma itemsets_Ok fuel t ms m n :
  itemsets_from_transactions fuel t ms = Some (Ok (m, n)) →
  ∃ rows x, accepted_rows t = Some rows ∧ ms = Number x ∧ in_unit_interval x
            ∧ mine fuel rows x = Some (Ok (m, n)).
Proof.
  unfold itemsets_from_transactions.
  destruct (sanitize t ms).2 as [[rows x]|e] eqn:Hs; [|done].
  apply sanitize_Ok in Hs as (? & ? & ?). eauto 10.
Qed.

Lemma itemsets_more_fuel fuel fuel' t ms r :
  fuel ≤ fuel' → itemsets_from_transactions fuel t ms = Some r →
  itemsets_from_transactions fuel' t ms = Some r.
Proof.
  intros Hle. unfold itemsets_from_transactions.
  destruct (sanitize t ms).2 as [[rows x]|e]; [|done].
  by apply mine_more_fuel.
Qed.

Lemma itemsets_eq_all fuel t ms :
  itemsets_from_transactions fuel t ms = itemsets_from_transactions_all fuel t ms.
Proof.
  unfold itemsets_from_transactions, itemsets_from_transactions_all.
  destruct (sanitize t ms).2 as [[rows x]|e]; [|done].
  apply mine_eq_all.
Qed.

Lemma subseteq_py_set (S t : list Z) : S ⊆ py_set t ↔ S ⊆ t.
Proof.
  unfold py_set. split; intros Hsub x Hx.
  - apply elem_of_remove_dups. by apply Hsub.
  - apply elem_of_remove_dups. by apply Hsub.
Qed.

Lemma accepted_given t rows :
  accepted_rows t = Some rows →
  ∃ ts, given_transactions t = Some ts
        ∧ (∀ S, S ≠ [] → support_count rows S = support_count ts S)
        ∧ ((∃ ts', t = Iterable ts') → Forall NoDup rows)
        ∧ ((∃ ts', t = Callable (Generator ts')) → rows = ts).
Proof.
  destruct t as [ts|[ts|ts|]|]; simpl; try done; intros [= <-]; exists ts.
  - split_and!; [done| | |by intros [? ?]].
    + intros S HS. unfold support_count.
      induction ts as [|t ts IH]; [done|].
      rewrite !filter_cons. destruct (decide (0 < length t)) as [Hlen|Hlen].
      * rewrite fmap_cons, filter_cons.
        destruct (decide (S ⊆ t)) as [Hsub|Hsub].
        -- rewrite decide_True by (by apply subseteq_py_set). simpl. by rewrite IH.
        -- rewrite decide_False by (by rewrite subseteq_py_set). done.
      * rewrite IH. rewrite decide_False; [done|].
        destruct t; [|simpl in Hlen; lia].
        intros Hsub. destruct S as [|i S]; [done|].
        by apply (not_elem_of_nil i), Hsub; left.
    + intros _. apply Forall_fmap, Forall_forall. intros t _. apply NoDup_remove_dups.
  - split_and!; [done|done|by intros [? ?]|done].
Qed.

(** ** The order of tuples and the contract of [join_step] *)

Lemma list_ltb_app (p s t : list Z) : list_ltb (p ++ s) (p ++ t) = list_ltb s t.
Proof. induction p as [|x p IH]; simpl; [done|]. by rewrite decide_True. Qed.

Lemma tuple_lt_snoc p a b : tuple_lt (p ++ [a]) (p ++ [b]) → (a < b)%Z.
Proof.
  unfold tuple_lt, py_ltb, list_PyOrd. rewrite list_ltb_app. simpl.
  case_decide; [done|]. unfold py_ltb, Z_PyOrd. lia.
Qed.

#[local] Instance tuple_lt_trans : Transitive tuple_lt.
Proof.
  unfold tuple_lt, py_ltb, list_PyOrd. intros s.
  induction s as [|a s IH]; intros [|b t] [|c u]; simpl; try done.
  unfold py_ltb, Z_PyOrd. repeat case_decide; subst; try done; try lia.
  apply IH.
Qed.

Lemma sorted_level_lt k L l1 x l2 y l3 :
  sorted_level k L → L = l1 ++ x :: l2 ++ y :: l3 → tuple_lt x y.
Proof.
  intros [_ Hs%Sorted_StronglySorted] ->; [|apply _].
  apply StronglySorted_app_1_r, StronglySorted_cons in Hs as [Hall _].
  rewrite Forall_forall in Hall. apply Hall.
  rewrite elem_of_app, elem_of_cons. auto.
Qed.

Lemma sorted_level_elem k L s :
  sorted_level k L → s ∈ L → length s = k ∧ Sorted Z.lt s.
Proof. intros [Hall _] Hin. rewrite Forall_forall in Hall. by apply Hall. Qed.

Lemma sorted_level_nonempty k L :
  1 ≤ k → sorted_level k L → Forall (λ t, t ≠ []) L.
Proof.
  intros Hk [Hall _]. eapply Forall_impl; [exact Hall|].
  intros s [Hlen _] ->. simpl in Hlen. lia.
Qed.

Lemma prune_step_every_position L out :
  join_step L = Ok out → prune_step L out = prune_every_position L out.
Proof.
  intros Hj. unfold prune_step, prune_every_position.
  assert (Hall : ∀ c, c ∈ out → passes_prune L c ↔ all_subsets_in L c).
  { intros c Hc. split.
    - intros Hp. apply Forall_forall. intros i [_ Hi]%elem_of_seq.
      by eapply join_prune_all_subsets.
    - unfold passes_prune, all_subsets_in. rewrite !Forall_forall.
      intros Hp i [_ Hi]%elem_of_seq. apply Hp, elem_of_seq. lia. }
  clear Hj. induction out as [|c out IH]; [done|].
  rewrite !filter_cons.
  assert (Hc := Hall c (list_elem_of_here c out)).
  rewrite IH by (intros c' Hc'; apply Hall; by right).
  destruct (decide (passes_prune L c)) as [Hp|Hp].
  - by rewrite decide_True by by apply Hc.
  - by rewrite decide_False by by rewrite <-Hc.
Qed.

(** Under its contract [join_step] returns when the itemsets are not empty
    tuples, and each candidate is a common prefix followed by the last
    items of two itemsets of the input. *)
Lemma join_step_returns k L :
  1 ≤ k → sorted_level k L → ∃ out, join_step L = Ok out.
Proof.
  intros Hk HL. apply join_while_total. by eapply sorted_level_nonempty.
Qed.

Lemma join_step_contract k L out c :
  sorted_level k L → join_step L = Ok out → c ∈ out →
  ∃ p a b, c = p ++ [a; b] ∧ length p = k - 1 ∧ (a < b)%Z
           ∧ p ++ [a] ∈ L ∧ p ++ [b] ∈ L
           ∧ length c = k + 1 ∧ Sorted Z.lt c.
Proof.
  intros HL Hout Hc.
  destruct (join_step_elem _ _ _ Hout Hc) as (p & a & b & l1 & l2 & l3 & -> & HLeq).
  assert (Ha : p ++ [a] ∈ L).
  { rewrite HLeq, elem_of_app, elem_of_cons. auto. }
  assert (Hb : p ++ [b] ∈ L).
  { rewrite HLeq, elem_of_app, elem_of_cons, elem_of_app, elem_of_cons. auto. }
  destruct (sorted_level_elem k L _ HL Ha) as [Hlen Hsa].
  assert (Hab : (a < b)%Z).
  { apply (tuple_lt_snoc p). by eapply sorted_level_lt. }
  rewrite length_app in Hlen. simpl in Hlen.
  exists p, a, b. split_and!; [done|lia|done|done|done| |].
  - rewrite length_app. simpl. lia.
  - change (p ++ [a; b]) with (p ++ [a] ++ [b]). rewrite app_assoc.
    apply Sorted_snoc; [done|]. by constructor.
Qed.

(** The fuel of [join_step] is enough: more fuel gives the same. *)
Lemma join_step_fuel L n : join_while (length L + n) L 0 = join_step L.
Proof.
  induction n as [|n IH]; [by rewrite Nat.add_0_r|].
  rewrite Nat.add_succ_r, join_while_fuel by lia. done.
Qed.

(** ** Consequences of the invariant for the returned mapping *)

Lemma loop_inv_downward rows n ms st k lvl S c :
  loop_inv rows n ms st → large_itemsets st !! k = Some lvl → 1 < k →
  (S, c) ∈ lvl →
  length S = k
  ∧ ∀ i, i < k → ∃ prev c', large_itemsets st !! (k - 1) = Some prev
                            ∧ (remove_at i S, c') ∈ prev ∧ c ≤ c'.
Proof.
  intros [_ _ Hlev _] Hk Hgt Hin.
  destruct (Hlev _ _ Hk) as (_ & _ & Hel).
  destruct (Hel S c Hin) as (Hlen & _ & _ & _ & _ & Hsup).
  destruct Hsup as (-> & prev & Hprev & Hsub); [lia|].
  split; [done|]. intros i Hi.
  destruct (proj1 (list_elem_of_fmap _ _ _) (Hsub i Hi)) as ([S' c'] & HS' & Hin').
  simpl in HS'. subst S'. exists prev, c'. split_and!; [done..|].
  destruct (Hlev _ _ Hprev) as (_ & _ & Hel').
  destruct (Hel' _ c' Hin') as (_ & _ & _ & _ & Hone & Hmore).
  pose proof (support_count_mono rows S (remove_at i S) (remove_at_subseteq i S)) as Hmono.
  destruct (decide (k - 1 = 1)) as [Heq|Hne].
  - destruct (Hone Heq) as (i0 & Hi0 & ->). rewrite Hi0 in Hmono.
    pose proof (support_count_singleton_le rows i0). lia.
  - destruct Hmore as [-> _]; [lia|]. done.
Qed.

Lemma loop_inv_counts rows n ms st k lvl S c :
  loop_inv rows n ms st → large_itemsets st !! k = Some lvl → (S, c) ∈ lvl →
  length S = k ∧ 1 ≤ k ∧ k ≤ distinct_items rows ∧ ge_support ms c n = true
  ∧ (k = 1 → ∃ i, S = [i] ∧ c = occurrences rows i)
  ∧ (2 ≤ k → c = support_count rows S).
Proof.
  intros [_ Hdom Hlev _] Hk Hin.
  destruct (Hlev _ _ Hk) as (_ & _ & Hel).
  destruct (Hel S c Hin) as (Hlen & Hnd & Hpos & Hge & Hone & Hmore).
  assert (Hk1 : 1 ≤ k) by (apply Hdom; eauto).
  split_and!; [done|done| |done|done|].
  - rewrite <-Hlen. apply length_le_distinct_items; [done|].
    destruct (decide (k = 1)) as [Heq|Hne].
    + destruct (Hone Heq) as (i & -> & ->).
      intros x ->%list_elem_of_singleton. unfold occurrences in Hpos.
      destruct (filter (λ x, x = i) (concat rows)) as [|y l] eqn:Hf; [simpl in Hpos; lia|].
      assert (Hy : y ∈ filter (λ x, x = i) (concat rows)) by (rewrite Hf; left).
      by apply list_elem_of_filter in Hy as [-> ?].
    + destruct Hmore as [-> _]; [lia|].
      apply support_count_pos in Hpos as (t & Ht & Hsub).
      intros x Hx. apply elem_of_concat. exists t. split; [done|]. by apply Hsub.
  - intros H2. by destruct (Hmore H2).
Qed.

(** Where the counts are supports: at every level for a collection, from
    level 2 on for a callable. *)
Lemma counts_at_set_levels fuel t ms ts levels n k lvl S c :
  given_transactions t = Some ts →
  itemsets_from_transactions fuel t ms = Some (Ok (levels, n)) →
  levels !! k = Some lvl → (S, c) ∈ lvl →
  (∃ ts', t = Iterable ts') ∨ 2 ≤ k → c = support_count ts S.
Proof.
  intros Hgiven (rows & x & Hacc & _ & _ & Hmine)%itemsets_Ok Hk Hin.
  destruct (mine_result _ _ _ _ Hmine) as (m & [= <- _] & [->|(st & Hinv & ->)]).
  { by rewrite lookup_empty in Hk. }
  destruct (loop_inv_counts _ _ _ _ _ _ S c Hinv Hk Hin)
    as (Hlen & Hk1 & _ & _ & Hone & Hmore).
  destruct (accepted_given t rows Hacc) as (ts0 & Hts0 & Hsup & Hnd & Hcall).
  assert (ts0 = ts) as -> by congruence.
  assert (HS : S ≠ []) by (intros ->; simpl in Hlen; lia).
  intros [Hit|H2].
  - destruct (decide (k = 1)) as [Heq|Hne].
    + destruct (Hone Heq) as (i & -> & ->).
      rewrite support_count_singleton_nodup by auto. by apply Hsup.
    + rewrite Hmore by lia. by apply Hsup.
  - rewrite Hmore by done. by apply Hsup.
Qed.

(** A row that the mask excludes is not looked at: what it holds does not
    matter to the counting. *)
Lemma count_candidates_skips C rows use row t' :
  mask_get use row = false →
  count_candidates C (<[row := t']> rows) use = count_candidates C rows use.
Proof.
  intros Hm. induction rows as [|t rows IH] using rev_ind; [done|].
  destruct (decide (row < length rows)) as [Hlt|Hge].
  - rewrite insert_app_l by done. unfold count_candidates in *.
    by rewrite !enumerate_snoc, !foldl_snoc, length_insert, IH.
  - destruct (decide (row = length rows)) as [->|Hne].
    + replace (<[length rows := t']> (rows ++ [t])) with (rows ++ [t']).
      2: { rewrite <-(Nat.add_0_r (length rows)) at 1. by rewrite insert_app_r. }
      unfold count_candidates. rewrite !enumerate_snoc, !foldl_snoc.
      fold (count_candidates C rows use).
      destruct (count_candidates_spec C rows use) as (Hge' & _).
      unfold count_row. simpl. rewrite Hge' by lia. by rewrite Hm.
    + rewrite list_insert_ge; [done|]. rewrite length_app; simpl; lia.
Qed.

Example mask_example_reached :
  state_after 1 mask_example_rows 3 0.25%float mask_example_state2
  = Some mask_example_state3.
Proof. vm_compute. reflexivity. Qed.

(** On accepted inputs the function returns, with any fuel above the number
    of distinct items, and what it returns does not depend on the fuel. *)
Lemma itemsets_total t x rows :
  accepted_rows t = Some rows → in_unit_interval x →
  ∃ m, (∀ fuel, distinct_items rows < fuel →
          itemsets_from_transactions fuel t (Number x) = Some (Ok (m, length rows)))
     ∧ (∀ fuel r, itemsets_from_transactions fuel t (Number x) = Some r →
                  r = Ok (m, length rows))
     ∧ (m = ∅ ∨ ∃ st, loop_inv rows (length rows) x st ∧ m = large_itemsets st).
Proof.
  intros Hacc Hx.
  destruct (mine_terminates (S (distinct_items rows)) rows x) as [r Hr]; [lia|].
  destruct (mine_result _ _ _ _ Hr) as (m & -> & Hm).
  exists m. split_and!; [| |done].
  - intros fuel Hfuel. rewrite (itemsets_accepted fuel t x rows) by done.
    eapply mine_more_fuel; [|exact Hr]. lia.
  - intros fuel r. rewrite (itemsets_accepted fuel t x rows) by done. intros Hr'.
    apply (mine_more_fuel _ (fuel `max` S (distinct_items rows))) in Hr; [|lia].
    apply (mine_more_fuel _ (fuel `max` S (distinct_items rows))) in Hr'; [|lia].
    congruence.
Qed.


(** The divisor of [c / num_transactions] is never 0 where the function
    divides: a count exists only once a transaction has been read. *)
Lemma count_items_divisor rows :
  (count_items rows).1 ≠ [] → 0 < (count_items rows).2.
Proof. destruct rows; [done|]. destruct (count_items_spec (l :: rows)) as [-> _]. simpl. lia. Qed.

Lemma count_candidates_divisor C rows use :
  (count_candidates C rows use).1 ≠ [] → 0 < length rows.
Proof. destruct rows; [done|]. simpl. lia. Qed.

(** ** The iteration order of a set does not matter

    [py_set] lists the items of a set in one order, Python in another.  The
    function gives the same for every order: level 1 is sorted before it is
    stored, and the later levels look at a transaction through
    [issubset] only. *)

Lemma py_ltb_pair (a b : Z) (c d : nat) :
  py_ltb (a, c) (b, d) = true ↔ (a < b)%Z ∨ (a = b ∧ c < d).
Proof.
  unfold py_ltb, prod_PyOrd, py_ltb, Z_PyOrd, nat_PyOrd. simpl.
  case_decide; rewrite ?Z.ltb_lt, ?Nat.ltb_lt; lia.
Qed.

Lemma py_le_pair (a b : Z) (c d : nat) :
  py_le (a, c) (b, d) ↔ (a < b)%Z ∨ (a = b ∧ c ≤ d).
Proof.
  unfold py_le. rewrite <-not_true_iff_false, py_ltb_pair. lia.
Qed.

#[local] Instance py_le_pair_trans : Transitive (py_le (A := Z * nat)).
Proof. intros [a c] [b d] [e f]. rewrite !py_le_pair. lia. Qed.

#[local] Instance py_le_pair_antisymm : AntiSymm (=) (py_le (A := Z * nat)).
Proof.
  intros [a c] [b d]. rewrite !py_le_pair. intros ??.
  assert (a = b) as -> by lia. f_equal. lia.
Qed.

#[local] Instance py_le_pair_total : Total (py_le (A := Z * nat)).
Proof. intros [a c] [b d]. rewrite !py_le_pair. lia. Qed.

Lemma py_sorted_pairs_perm (l l' : list (Z * nat)) :
  l ≡ₚ l' → py_sorted l = py_sorted l'.
Proof.
  intros Hp. apply (Sorted_unique py_le).
  - apply Sorted_merge_sort, _.
  - apply Sorted_merge_sort, _.
  - by rewrite !py_sorted_perm.
Qed.

Lemma dict_wf_perm_cnt (d d' : list (Z * nat)) :
  dict_wf d → dict_wf d' → (∀ i, cnt i d = cnt i d') → d ≡ₚ d'.
Proof.
  intros Hwf Hwf' Hcnt. apply NoDup_Permutation.
  - eapply NoDup_fmap_1, Hwf.
  - eapply NoDup_fmap_1, Hwf'.
  - intros [i c]. rewrite !dict_wf_elem by done. by rewrite Hcnt.
Qed.

Lemma occurrences_perm rows rows' i :
  Forall2 (≡ₚ) rows rows' → occurrences rows i = occurrences rows' i.
Proof.
  induction 1 as [|t t' rows rows' Ht _ IH]; [done|].
  rewrite !occurrences_cons, IH. f_equal.
  apply Permutation_length. by rewrite Ht.
Qed.

Lemma count_items_perm rows rows' :
  Forall2 (≡ₚ) rows rows' → (count_items rows).1 ≡ₚ (count_items rows').1.
Proof.
  intros Hp.
  destruct (count_items_spec rows) as (_ & Hwf & Hcnt).
  destruct (count_items_spec rows') as (_ & Hwf' & Hcnt').
  apply dict_wf_perm_cnt; [done..|].
  intros i. rewrite Hcnt, Hcnt'. by apply occurrences_perm.
Qed.

Lemma count_match_perm (t t' : list Z) acc cc :
  t ≡ₚ t' → count_match t acc cc = count_match t' acc cc.
Proof.
  intros Ht. unfold count_match, issubset.
  destruct (decide (cc.2 ⊆ t)) as [Hs|Hs], (decide (cc.2 ⊆ t')) as [Hs'|Hs'];
    try done; exfalso; apply Hs || apply Hs'; intros x Hx.
  - rewrite <-Ht. by apply Hs.
  - rewrite Ht. by apply Hs'.
Qed.

Lemma count_matches_perm C Cs (t t' : list Z) acc :
  t ≡ₚ t' → count_matches C Cs t acc = count_matches C Cs t' acc.
Proof.
  intros Ht. unfold count_matches. revert acc.
  induction (zip C Cs) as [|cc l IH]; intros acc; [done|].
  simpl. by rewrite (count_match_perm t t'), IH.
Qed.

Lemma count_candidates_perm C rows rows' use :
  Forall2 (≡ₚ) rows rows' →
  count_candidates C rows use = count_candidates C rows' use.
Proof.
  intros Hp. unfold count_candidates, enumerate.
  assert (Hgen : ∀ start st,
            foldl (count_row C (py_set <$> C)) st (zip (seq start (length rows)) rows)
            = foldl (count_row C (py_set <$> C)) st (zip (seq start (length rows')) rows')).
  { induction Hp as [|t t' rows rows' Ht _ IH]; intros start st; [done|].
    simpl. rewrite <-IH. f_equal.
    unfold count_row. simpl. by rewrite (count_matches_perm _ _ t t'). }
  apply Hgen.
Qed.

Lemma level_loop_perm fuel rows rows' n ms st :
  Forall2 (≡ₚ) rows rows' →
  level_loop fuel rows n ms st = level_loop fuel rows' n ms st.
Proof.
  intros Hp. revert st. induction fuel as [|fuel IH]; intros st; [done|].
  simpl. unfold level_step.
  destruct (large_itemsets st !! (level_k st - 1)) as [prev|]; [|done].
  destruct (decide (prev = [])); [done|].
  destruct (apriori_gen prev.*1) as [C|]; [|done]. cbv zeta.
  rewrite (count_candidates_perm C rows rows') by done.
  destruct (decide _); [done|]. apply IH.
Qed.

Lemma mine_set_order fuel rows rows' ms :
  Forall2 (≡ₚ) rows rows' → mine fuel rows ms = mine fuel rows' ms.
Proof.
  intros Hp. rewrite !mine_unfold. cbv zeta.
  rewrite <-(Forall2_length _ _ _ Hp).
  assert (Hlarge :
     py_sorted (filter (λ ic : Z * nat, ge_support ms ic.2 (length rows) = true)
                       (count_items rows).1)
     = py_sorted (filter (λ ic : Z * nat, ge_support ms ic.2 (length rows) = true)
                         (count_items rows').1)).
  { apply py_sorted_pairs_perm. by rewrite (count_items_perm rows rows'). }
  destruct (decide (filter _ (count_items rows).1 = [])) as [Hnil|Hne],
           (decide (filter _ (count_items rows').1 = [])) as [Hnil'|Hne'].
  - done.
  - exfalso. apply Hne'. rewrite Hnil in Hlarge.
    apply Permutation_nil_r. rewrite <-py_sorted_perm, <-Hlarge. done.
  - exfalso. apply Hne. rewrite Hnil' in Hlarge.
    apply Permutation_nil_r. rewrite <-py_sorted_perm, Hlarge. done.
  - rewrite Hlarge. by rewrite (level_loop_perm fuel rows rows').
Qed.

(** * The claims *)

(** C1.  On the transactions [(1,3,4), (2,3,5), (1,2,3,5), (2,5)] with
    [min_support = 0.4] the function returns level 1 =
    [{(1,):2, (2,):3, (3,):3, (5,):3}], level 2 =
    [{(1,3):2, (2,3):2, (2,5):3, (3,5):2}], level 3 = [{(2,3,5):2}], no
    level 4, and the transaction count 4.  The loop test is reached three
    times; any fuel from 3 on gives this result. *)
Theorem paper_example_itemsets fuel :
  itemsets_from_transactions (3 + fuel) (Iterable paper_transactions)
                             (Number support_0_4)
  = Some (Ok (paper_itemsets, 4))
  ∧ paper_itemsets !! 4 = None.
Proof.
  split; [|done].
  apply (itemsets_more_fuel 3); [lia|]. vm_compute. reflexivity.
Qed.

(** C9.  [join_step] on [(1,2,3), (1,2,4), (1,3,4), (1,3,5), (2,3,4)] yields
    exactly [(1,2,3,4), (1,3,4,5)]; and on every list of length-[k] itemsets
    that meets the contract it returns (for [k >= 1]: the empty tuple cannot
    be unpacked), and each candidate it returns is a strictly increasing
    tuple of length [k + 1], made of a prefix of length [k - 1] shared by
    two itemsets of the input followed by their two last items [a < b]. *)
Theorem join_step_candidates :
  join_step [[1; 2; 3]; [1; 2; 4]; [1; 3; 4]; [1; 3; 5]; [2; 3; 4]]%Z
  = Ok [[1; 2; 3; 4]; [1; 3; 4; 5]]%Z
  ∧ ∀ k L, sorted_level k L →
      (1 ≤ k → ∃ out, join_step L = Ok out)
      ∧ ∀ out c, join_step L = Ok out → c ∈ out →
          ∃ p a b, c = p ++ [a; b] ∧ length p = k - 1 ∧ (a < b)%Z
                   ∧ p ++ [a] ∈ L ∧ p ++ [b] ∈ L
                   ∧ length c = k + 1 ∧ Sorted Z.lt c.
Proof.
  split; [apply join_step_paper|]. intros k L HL. split.
  - intros Hk. by eapply join_step_returns.
  - intros out c. by apply join_step_contract.
Qed.

Lemma join_step_candidates_witness :
  (1 ≤ 2 → ∃ out, join_step [[1; 2]; [1; 3]; [2; 3]]%Z = Ok out)
  ∧ ∀ out c, join_step [[1; 2]; [1; 3]; [2; 3]]%Z = Ok out → c ∈ out →
      ∃ p a b, c = p ++ [a; b] ∧ length p = 2 - 1 ∧ (a < b)%Z
               ∧ p ++ [a] ∈ [[1; 2]; [1; 3]; [2; 3]]%Z
               ∧ p ++ [b] ∈ [[1; 2]; [1; 3]; [2; 3]]%Z
               ∧ length c = 2 + 1 ∧ Sorted Z.lt c.
Proof.
  apply (proj2 join_step_candidates 2 [[1; 2]; [1; 3]; [2; 3]]%Z).
  split; repeat constructor; lia || reflexivity.
Defined.

(** C3.  On a list [L] of length-[k] itemsets that meets the contract
    [join_step] returns (for [k >= 1]); every candidate it returns has
    length [k + 1] and gives a member of [L] when its last item (position
    [k]) or its second-to-last item (position [k - 1]) is removed;
    [prune_step], which tests the positions below [k - 1] only, therefore
    emits exactly the candidates that pass the test at every position. *)
Theorem prune_step_checks_enough k L :
  sorted_level k L →
  (1 ≤ k → ∃ out, join_step L = Ok out)
  ∧ ∀ out, join_step L = Ok out →
      (∀ c, c ∈ out →
         length c = k + 1 ∧ remove_at k c ∈ L ∧ remove_at (k - 1) c ∈ L
         ∧ (passes_prune L c ↔ ∀ i, i < k - 1 → remove_at i c ∈ L))
      ∧ prune_step L out = prune_every_position L out
      ∧ ∀ c, c ∈ prune_step L out ↔
             c ∈ out ∧ ∀ i, i < k + 1 → remove_at i c ∈ L.
Proof.
  intros HL. split; [intros Hk; by eapply join_step_returns|].
  intros out Hout.
  pose proof (λ c, join_step_contract k L out c HL Hout) as Hel.
  split_and!; [|by apply prune_step_every_position|].
  - intros c Hc.
    destruct (Hel c Hc) as (p & a & b & -> & Hp & _ & Ha & Hb & Hlen & _).
    assert (Hk : k = S (length p)).
    { rewrite length_app in Hlen. simpl in Hlen. lia. }
    split_and!; [done| | |].
    + rewrite Hk. by rewrite remove_at_last.
    + rewrite <-Hp. by rewrite remove_at_second_last.
    + unfold passes_prune. rewrite Forall_forall, Hlen.
      replace (k + 1 - 2) with (k - 1) by lia. split.
      * intros Hall i Hi. apply Hall, elem_of_seq. lia.
      * intros Hall i [_ Hi]%elem_of_seq. apply Hall. lia.
  - intros c. rewrite elem_of_prune_step. split.
    + intros [Hp Hc]. split; [done|]. intros i Hi.
      eapply join_prune_all_subsets; eauto.
      destruct (Hel c Hc) as (? & ? & ? & _ & _ & _ & _ & _ & -> & _). done.
    + intros [Hc Hall]. split; [|done].
      apply Forall_forall. intros i [_ Hi]%elem_of_seq. apply Hall.
      destruct (Hel c Hc) as (? & ? & ? & _ & _ & _ & _ & _ & Hlen & _). lia.
Qed.

Lemma prune_step_checks_enough_witness :
  (1 ≤ 2 → ∃ out, join_step [[1; 2]; [1; 3]; [2; 3]]%Z = Ok out)
  ∧ ∀ out, join_step [[1; 2]; [1; 3]; [2; 3]]%Z = Ok out →
      (∀ c, c ∈ out →
         length c = 2 + 1
         ∧ remove_at 2 c ∈ [[1; 2]; [1; 3]; [2; 3]]%Z
         ∧ remove_at (2 - 1) c ∈ [[1; 2]; [1; 3]; [2; 3]]%Z
         ∧ (passes_prune [[1; 2]; [1; 3]; [2; 3]]%Z c ↔
            ∀ i, i < 2 - 1 → remove_at i c ∈ [[1; 2]; [1; 3]; [2; 3]]%Z))
      ∧ prune_step [[1; 2]; [1; 3]; [2; 3]]%Z out
        = prune_every_position [[1; 2]; [1; 3]; [2; 3]]%Z out
      ∧ ∀ c, c ∈ prune_step [[1; 2]; [1; 3]; [2; 3]]%Z out ↔
             c ∈ out ∧ ∀ i, i < 2 + 1 → remove_at i c ∈ [[1; 2]; [1; 3]; [2; 3]]%Z.
Proof.
  apply (prune_step_checks_enough 2 [[1; 2]; [1; 3]; [2; 3]]%Z).
  split; repeat constructor; lia || reflexivity.
Defined.

(** C2.  Downward closure of the result.  Whenever the function returns,
    every itemset [S] of a level [k > 1] with count [c] has length [k], and
    each tuple obtained from [S] by removing one item is a key of level
    [k - 1], with a count there of at least [c]. *)
Theorem downward_closure fuel t ms levels n :
  itemsets_from_transactions fuel t ms = Some (Ok (levels, n)) →
  ∀ k lvl S c, 1 < k → levels !! k = Some lvl → (S, c) ∈ lvl →
    length S = k
    ∧ ∀ i, i < k → ∃ prev c', levels !! (k - 1) = Some prev
                              ∧ (remove_at i S, c') ∈ prev ∧ c ≤ c'.
Proof.
  intros (rows & x & _ & _ & _ & Hmine)%itemsets_Ok k lvl S c Hk Hlvl Hin.
  destruct (mine_result _ _ _ _ Hmine) as (m & [= <- _] & [->|(st & Hinv & ->)]).
  - by rewrite lookup_empty in Hlvl.
  - by eapply loop_inv_downward.
Qed.

Lemma downward_closure_witness :
  length [2; 3; 5]%Z = 3
  ∧ ∀ i, i < 3 → ∃ prev c', paper_itemsets !! (3 - 1) = Some prev
                            ∧ (remove_at i [2; 3; 5]%Z, c') ∈ prev ∧ 2 ≤ c'.
Proof.
  refine (downward_closure 3 (Iterable paper_transactions) (Number support_0_4)
            paper_itemsets 4 _ 3 [([2; 3; 5]%Z, 2)] _ _ _ _ _).
  - vm_compute. reflexivity.
  - lia.
  - reflexivity.
  - left.
Defined.

(** C4.  The row-usage mask.  A row that the mask excludes at some loop test
    is excluded at every later loop test of the run; the body of the row
    loop leaves the state as it is for such a row, and the counting of any
    candidates gives the same whatever the row holds.  And the run with the
    row skipping disabled (every row counted at every level) returns the
    same as the run with it, on every input and with every fuel. *)
Theorem row_mask_monotone_and_sound :
  (∀ j rows n ms st st' row,
     state_after j rows n ms st = Some st' →
     mask_get (use_transaction st) row = false →
     level_k st' = level_k st + j
     ∧ mask_get (use_transaction st') row = false
     ∧ (∀ C Cs counts t,
          count_row C Cs (counts, use_transaction st') (row, t)
          = (counts, use_transaction st'))
     ∧ (∀ C t,
          count_candidates C (<[row := t]> rows) (use_transaction st')
          = count_candidates C rows (use_transaction st')))
  ∧ (∀ fuel t ms,
       itemsets_from_transactions fuel t ms
       = itemsets_from_transactions_all fuel t ms).
Proof.
  split; [|apply itemsets_eq_all].
  intros j rows n ms st st' row [Hk Hmono]%state_after_mask Hm.
  specialize (Hmono row Hm). split_and!; [done|done| |].
  - intros C Cs counts t. unfold count_row. simpl. by rewrite Hmono.
  - intros C t. by apply count_candidates_skips.
Qed.

Lemma row_mask_monotone_and_sound_witness :
  level_k mask_example_state4 = level_k mask_example_state3 + 1
  ∧ mask_get (use_transaction mask_example_state4) 2 = false
  ∧ (∀ C Cs counts t,
       count_row C Cs (counts, use_transaction mask_example_state4) (2, t)
       = (counts, use_transaction mask_example_state4))
  ∧ (∀ C t,
       count_candidates C (<[2 := t]> mask_example_rows)
                        (use_transaction mask_example_state4)
       = count_candidates C mask_example_rows
                          (use_transaction mask_example_state4)).
Proof.
  apply (proj1 row_mask_monotone_and_sound 1 mask_example_rows 3 0.25%float
           mask_example_state3 mask_example_state4 2).
  - vm_compute. reflexivity.
  - reflexivity.
Defined.

(** C5.  Termination and determinism.  For a transaction source of one of
    the two accepted shapes and a [min_support] in [0, 1] the function
    returns: any fuel above the number of distinct items is enough, so the
    loop test is reached at most that many times; the result is the same
    for every fuel that is enough; and a level [k] of the result holds
    itemsets of length [k], with [k] at most the number of distinct
    items. *)
Theorem mining_terminates t ms rows x :
  accepted_rows t = Some rows → ms = Number x → in_unit_interval x →
  ∃ m, (∀ fuel, distinct_items rows < fuel →
          itemsets_from_transactions fuel t ms = Some (Ok (m, length rows)))
     ∧ (∀ fuel r, itemsets_from_transactions fuel t ms = Some r →
                  r = Ok (m, length rows))
     ∧ (∀ k lvl, m !! k = Some lvl →
          1 ≤ k ≤ distinct_items rows ∧ ∀ S c, (S, c) ∈ lvl → length S = k).
Proof.
  intros Hacc -> Hx.
  destruct (itemsets_total t x rows Hacc Hx) as (m & Hret & Hdet & Hm).
  exists m. split_and!; [done|done|].
  intros k lvl Hk. destruct Hm as [->|(st & Hinv & ->)].
  { by rewrite lookup_empty in Hk. }
  destruct (inv_levels _ _ _ _ Hinv _ _ Hk) as (Hne & _).
  destruct lvl as [|[S0 c0] lvl]; [done|].
  destruct (loop_inv_counts _ _ _ _ _ _ S0 c0 Hinv Hk) as (_ & ? & ? & _); [left|].
  split; [lia|]. intros S c Hin.
  by destruct (loop_inv_counts _ _ _ _ _ _ S c Hinv Hk Hin) as (? & _).
Qed.

Lemma mining_terminates_witness :
  ∃ m, (∀ fuel, distinct_items (py_set <$> paper_transactions) < fuel →
          itemsets_from_transactions fuel (Iterable paper_transactions)
                                     (Number support_0_4)
          = Some (Ok (m, length (py_set <$> paper_transactions))))
     ∧ (∀ fuel r, itemsets_from_transactions fuel (Iterable paper_transactions)
                                             (Number support_0_4) = Some r →
                  r = Ok (m, length (py_set <$> paper_transactions)))
     ∧ (∀ k lvl, m !! k = Some lvl →
          1 ≤ k ≤ distinct_items (py_set <$> paper_transactions)
          ∧ ∀ S c, (S, c) ∈ lvl → length S = k).
Proof.
  apply (mining_terminates (Iterable paper_transactions) (Number support_0_4)
           (py_set <$> paper_transactions) support_0_4).
  - reflexivity.
  - reflexivity.
  - split; reflexivity.
Defined.

(** C6.  The code breaks the claim for a callable, whose transactions are
    not turned into sets: STEP 1 counts an item once for each time it
    occurs.  The generator of [(1, 1), (2,), (2,)] with [min_support = 0.6]
    gives item 1 the count 2 and stores it as frequent, though one
    transaction of three contains it; the same transactions given as a
    collection count it once and drop it. *)
Theorem callable_counts_duplicates fuel :
  itemsets_from_transactions (1 + fuel)
    (Callable (Generator [[1; 1]; [2]; [2]]%Z)) (Number support_0_6)
  = Some (Ok ({[ 1 := [([1]%Z, 2); ([2]%Z, 2)] ]}, 3))
  ∧ itemsets_from_transactions (1 + fuel)
      (Iterable [[1; 1]; [2]; [2]]%Z) (Number support_0_6)
    = Some (Ok ({[ 1 := [([2]%Z, 2)] ]}, 3))
  ∧ support_count [[1; 1]; [2]; [2]]%Z [1]%Z = 1
  ∧ ge_support support_0_6 1 3 = false.
Proof.
  split_and!.
  - apply (itemsets_more_fuel 1); [lia|]. vm_compute. reflexivity.
  - apply (itemsets_more_fuel 1); [lia|]. vm_compute. reflexivity.
  - reflexivity.
  - reflexivity.
Qed.




(** C8, as stated, fails: a callable that returns a list, which is
    iterable, is rejected with the [TypeError] of the validation. *)
Lemma callable_returning_list_rejected :
  ¬ (∀ fuel ret ms, returns_iterable ret →
       itemsets_from_transactions fuel (Callable ret) ms ≠ Some (Raise TypeError)).
Proof.
  intros Hclaim.
  apply (Hclaim 0 (OtherIterable [[1]]%Z) (Number 0.5%float)); [done|].
  reflexivity.
Qed.

(** C8, amended.  A callable is accepted exactly when the value it returns
    is a generator: the function then returns a result when [min_support]
    is valid; for every other returned value, a list or another iterable
    included, it raises the [TypeError] of the validation. *)
Theorem callable_accepted_iff_generator ret ms :
  (∀ fuel, itemsets_from_transactions fuel (Callable ret) ms = Some (Raise TypeError)
           ↔ ∀ ts, ret ≠ Generator ts)
  ∧ (∀ ts x, ret = Generator ts → ms = Number x → in_unit_interval x →
       ∃ m, ∀ fuel, distinct_items ts < fuel →
              itemsets_from_transactions fuel (Callable ret) ms
              = Some (Ok (m, length ts))).
Proof.
  split.
  - intros fuel. destruct ret as [ts| |].
    + split; [|by intros H; destruct (H ts)].
      unfold itemsets_from_transactions.
      destruct (sanitize (Callable (Generator ts)) ms).2 as [[rows x]|e] eqn:Hs.
      * intros Hmine. by destruct (mine_result _ _ _ _ Hmine) as (? & ? & _).
      * unfold sanitize in Hs. simpl in Hs. destruct ms as [y| |]; simpl in Hs.
        -- destruct (_ && _); [done|]. by injection Hs as <-.
        -- by injection Hs as <-.
        -- by injection Hs as <-.
    + done.
    + done.
  - intros ts x -> -> Hx.
    destruct (itemsets_total (Callable (Generator ts)) x ts eq_refl Hx)
      as (m & Hret & _).
    by exists m.
Qed.

Lemma callable_accepted_iff_generator_witness :
  ∃ m, ∀ fuel, distinct_items paper_transactions < fuel →
         itemsets_from_transactions fuel (Callable (Generator paper_transactions))
                                    (Number support_0_4)
         = Some (Ok (m, length paper_transactions)).
Proof.
  apply (proj2 (callable_accepted_iff_generator (Generator paper_transactions)
                  (Number support_0_4)) paper_transactions support_0_4).
  - reflexivity.
  - reflexivity.
  - split; reflexivity.
Defined.



(** * Further properties of the code *)

(** ** The order of tuples is a strict total order *)

Lemma tuple_lt_irrefl s : ¬ tuple_lt s s.
Proof.
  unfold tuple_lt, py_ltb, list_PyOrd. induction s as [|a s IH]; simpl; [done|].
  by rewrite decide_True.
Qed.

Lemma tuple_lt_trichotomy s t : tuple_lt s t ∨ s = t ∨ tuple_lt t s.
Proof.
  unfold tuple_lt, py_ltb, list_PyOrd. revert t.
  induction s as [|a s IH]; intros [|b t]; simpl; auto.
  destruct (decide (a = b)) as [->|Hne].
  - rewrite decide_True by done. destruct (IH t) as [?|[->|?]]; auto.
  - rewrite decide_False by done. unfold py_ltb, Z_PyOrd.
    destruct (Z.ltb_spec a b), (Z.ltb_spec b a); auto; lia.
Qed.

Lemma tuple_lt_asym s t : tuple_lt s t → ¬ tuple_lt t s.
Proof. intros H1 H2. apply (tuple_lt_irrefl s). by etrans. Qed.

Lemma tuple_lt_singleton (a b : Z) : tuple_lt [a] [b] ↔ (a < b)%Z.
Proof.
  unfold tuple_lt, py_ltb, list_PyOrd. simpl. unfold py_ltb, Z_PyOrd.
  case_decide; rewrite ?Z.ltb_lt; [|done]. split; [done|lia].
Qed.

Lemma py_ltb_entry (s t : list Z) (c d : nat) :
  py_ltb (s, c) (t, d) = true ↔ tuple_lt s t ∨ (s = t ∧ c < d).
Proof.
  unfold py_ltb at 1, prod_PyOrd. simpl.
  destruct (decide (s = t)) as [Heq|Hne].
  - subst t. unfold py_ltb, nat_PyOrd. rewrite Nat.ltb_lt.
    pose proof (tuple_lt_irrefl s). naive_solver.
  - unfold tuple_lt. naive_solver.
Qed.

Lemma py_le_entry (s t : list Z) (c d : nat) :
  py_le (s, c) (t, d) ↔ tuple_lt s t ∨ (s = t ∧ c ≤ d).
Proof.
  unfold py_le. rewrite <-not_true_iff_false, py_ltb_entry.
  pose proof (tuple_lt_irrefl s) as Hirr.
  pose proof (tuple_lt_asym s t) as Has.
  destruct (tuple_lt_trichotomy s t) as [Hlt|[Heq|Hgt]].
  - split; [auto|]. intros _ [?|[Heq ?]]; [by apply Has|]. subst. done.
  - subst. split.
    + intros Hn. right. split; [done|]. apply Nat.nlt_ge. intros ?. apply Hn. auto.
    + intros [?|[_ ?]] [?|[_ ?]]; try done. lia.
  - split; [intros Hn; destruct Hn; auto|].
    intros [?|[Heq ?]]; [by destruct Has|]. subst. done.
Qed.

#[local] Instance py_le_entry_trans : Transitive (py_le (A := list Z * nat)).
Proof.
  intros [s c] [t d] [u e]. rewrite !py_le_entry.
  intros [H1|[E1 H1]] [H2|[E2 H2]]; subst.
  - left. by etrans.
  - by left.
  - by left.
  - right. split; [done|lia].
Qed.

#[local] Instance py_le_entry_antisymm : AntiSymm (=) (py_le (A := list Z * nat)).
Proof.
  intros [s c] [t d]. rewrite !py_le_entry.
  intros [H1|[E1 H1]] [H2|[E2 H2]]; subst.
  - by destruct (tuple_lt_asym _ _ H1).
  - by destruct (tuple_lt_irrefl _ H1).
  - by destruct (tuple_lt_irrefl _ H2).
  - f_equal. lia.
Qed.

#[local] Instance py_le_entry_total : Total (py_le (A := list Z * nat)).
Proof.
  intros [s c] [t d]. rewrite !py_le_entry.
  destruct (tuple_lt_trichotomy s t) as [?|[Heq|?]]; auto. subst.
  destruct (decide (c ≤ d)); [auto|]. right. right. split; [done|lia].
Qed.

Lemma py_sorted_entries_perm (l l' : list (list Z * nat)) :
  l ≡ₚ l' → py_sorted l = py_sorted l'.
Proof.
  intros Hp. apply (Sorted_unique py_le).
  - apply Sorted_merge_sort, _.
  - apply Sorted_merge_sort, _.
  - by rewrite !py_sorted_perm.
Qed.

(** [sorted] of entries with distinct keys lists the keys in strictly
    increasing order. *)
Lemma StronglySorted_keys {K V} (R : relation (K * V)) (R' : relation K)
    (l : list (K * V)) :
  (∀ x y, R x y → x.1 ≠ y.1 → R' x.1 y.1) →
  StronglySorted R l → NoDup l.*1 → StronglySorted R' l.*1.
Proof.
  intros HR. induction 1 as [|x l Hs IH Hall]; csimpl; [constructor|].
  intros [Hnin Hnd]%NoDup_cons. constructor; [by apply IH|].
  apply Forall_fmap, Forall_forall. intros y Hy. simpl.
  rewrite Forall_forall in Hall. apply HR; [by apply Hall|].
  intros Heq. apply Hnin. rewrite Heq. apply list_elem_of_fmap. by exists y.
Qed.

Lemma py_sorted_entries_keys (l : list (list Z * nat)) :
  NoDup l.*1 → Sorted tuple_lt (py_sorted l).*1.
Proof.
  intros Hnd. apply StronglySorted_Sorted.
  apply (StronglySorted_keys py_le).
  - intros [s c] [t d] Hle Hne. simpl in *.
    apply py_le_entry in Hle as [?|[? _]]; done.
  - apply StronglySorted_merge_sort; apply _.
  - by rewrite py_sorted_perm.
Qed.

Lemma py_sorted_pairs_keys (l : list (Z * nat)) :
  NoDup l.*1 → Sorted Z.lt (py_sorted l).*1.
Proof.
  intros Hnd. apply StronglySorted_Sorted.
  apply (StronglySorted_keys py_le).
  - intros [a c] [b d] Hle Hne. simpl in *.
    apply py_le_pair in Hle. lia.
  - apply StronglySorted_merge_sort; apply _.
  - by rewrite py_sorted_perm.
Qed.

(** ** [join_step] is the self-join of its input *)

Lemma tuple_lt_cons (x y : Z) (s t : list Z) :
  tuple_lt (x :: s) (y :: t) ↔ (x < y)%Z ∨ (x = y ∧ tuple_lt s t).
Proof.
  unfold tuple_lt, py_ltb, list_PyOrd. simpl. unfold py_ltb, Z_PyOrd.
  case_decide; rewrite ?Z.ltb_lt; [subst|]; naive_solver lia.
Qed.

Lemma tuple_lt_snoc_inv p r a c :
  length p = length r → tuple_lt (p ++ [a]) (r ++ [c]) →
  tuple_lt p r ∨ (p = r ∧ (a < c)%Z).
Proof.
  revert r. induction p as [|x p IH]; intros [|y r] Hlen; simpl in *; try done.
  - rewrite tuple_lt_singleton. auto.
  - rewrite !tuple_lt_cons. intros [?|[-> Hlt]]; [auto|].
    destruct (IH r) as [?|[-> ?]]; [lia|done|auto..].
Qed.

Lemma tuple_lt_between p r a b c :
  length p = length r →
  tuple_lt (p ++ [a]) (r ++ [c]) → tuple_lt (r ++ [c]) (p ++ [b]) → r = p.
Proof.
  intros Hlen H1 H2.
  apply tuple_lt_snoc_inv in H1 as [H1|[-> _]]; [|done..].
  apply tuple_lt_snoc_inv in H2 as [H2|[-> _]]; [|done..].
  by destruct (tuple_lt_asym _ _ H1).
Qed.

Lemma scan_block_stop first following tails y :
  scan_block first following = Ok tails →
  following !! length tails = Some y → ∀ c, y ≠ first ++ [c].
Proof.
  revert tails. induction following as [|t following IH]; intros tails; simpl.
  - by intros [= <-].
  - destruct (unpack_last t) as [q|] eqn:Hq; simpl; [|done].
    apply unpack_last_Ok in Hq as ->.
    destruct (decide (first = q.1)) as [->|Hne].
    + destruct (scan_block q.1 following) as [tails'|] eqn:Hs; simpl; [|done].
      intros [= <-]. simpl. by apply IH.
    + intros [= <-]. simpl. intros [= <-] c [Heq _]%app_inj_tail. done.
Qed.

Lemma combinations2_intro l1 a l2 b l3 :
  (a, b) ∈ combinations2 (l1 ++ a :: l2 ++ b :: l3).
Proof.
  induction l1 as [|x l1 IH]; simpl; apply elem_of_app.
  - left. apply list_elem_of_fmap. exists b. split; [done|].
    rewrite elem_of_app, elem_of_cons. auto.
  - by right.
Qed.

Lemma StronglySorted_tails p (l : list Z) :
  StronglySorted tuple_lt ((λ x, p ++ [x]) <$> l) → StronglySorted Z.lt l.
Proof.
  induction l as [|x l IH]; csimpl; [constructor|].
  intros [Hall Hs]%StronglySorted_cons. constructor; [by apply IH|].
  rewrite Forall_fmap in Hall. eapply Forall_impl; [exact Hall|].
  intros y Hy. by apply (tuple_lt_snoc p).
Qed.

Lemma StronglySorted_split (l : list Z) a b :
  StronglySorted Z.lt l → a ∈ l → b ∈ l → (a < b)%Z →
  ∃ l1 l2 l3, l = l1 ++ a :: l2 ++ b :: l3.
Proof.
  intros Hs (l1 & l2 & ->)%list_elem_of_split Hb Hab.
  apply elem_of_app in Hb as [Hb|[->|Hb]%elem_of_cons].
  - pose proof (StronglySorted_app_1_elem_of _ _ _ b a Hs Hb) as Hlt.
    specialize (Hlt (list_elem_of_here _ _)). lia.
  - lia.
  - apply list_elem_of_split in Hb as (l2' & l3 & ->). eauto.
Qed.

Lemma sorted_level_strongly k L : sorted_level k L → StronglySorted tuple_lt L.
Proof. intros [_ Hs]. apply Sorted_StronglySorted; [apply _|done]. Qed.

Lemma join_while_complete fuel L i k out p a b :
  sorted_level k L → length L ≤ i + fuel →
  join_while fuel L i = Ok out →
  p ++ [a] ∈ drop i L → p ++ [b] ∈ drop i L → (a < b)%Z →
  p ++ [a; b] ∈ out.
Proof.
  intros HL. revert i out. induction fuel as [|fuel IH]; intros i out Hfuel.
  { intros _ Ha. rewrite drop_ge in Ha by lia. by apply elem_of_nil in Ha. }
  rewrite join_while_S.
  destruct (drop i L) as [|itemset following] eqn:Hdrop.
  { by intros _ ?%elem_of_nil. }
  destruct (unpack_last itemset) as [q|] eqn:Hq; cbn [rbind]; [|done].
  apply unpack_last_Ok in Hq as ->.
  destruct (scan_block q.1 following) as [tails|] eqn:Hs; cbn [rbind]; [|done].
  destruct (join_while fuel L (i + length (q.2 :: tails))) as [rest|] eqn:Hrest;
    cbn [rbind]; [|done].
  intros [= <-] Ha Hb Hab. rewrite <-Hdrop in Ha, Hb.
  pose proof (λ y, scan_block_stop _ _ _ y Hs) as Hstop.
  apply scan_block_spec in Hs.
  assert (Hsplit : drop i L
                   = ((λ x, q.1 ++ [x]) <$> (q.2 :: tails))
                     ++ drop (i + length (q.2 :: tails)) L).
  { rewrite <-drop_drop, Hdrop, fmap_cons, Hs. simpl. by rewrite take_drop. }
  assert (Hss : StronglySorted tuple_lt (drop i L)).
  { apply sorted_level_strongly in HL.
    rewrite <-(take_drop i L) in HL. by apply StronglySorted_app_1_r in HL. }
  assert (Hlen : ∀ s, s ∈ drop i L → length s = k).
  { intros s Hsin. eapply sorted_level_elem; [exact HL|].
    eapply subseteq_drop, Hsin. }
  apply elem_of_app. destruct (decide (q.1 = p)) as [Hqp|Hqp].
  - left. rewrite Hqp in *.
    assert (Hin : ∀ x, p ++ [x] ∈ drop i L → x ∈ q.2 :: tails).
    { intros x Hx. rewrite Hsplit in Hx.
      apply elem_of_app in Hx as [Hx|Hx].
      { apply list_elem_of_fmap in Hx as (x' & [_ ->]%app_inj_tail & ?). done. }
      exfalso. rewrite <-drop_drop, Hdrop in Hx. simpl in Hx.
      destruct (drop (length tails) following) as [|y rest'] eqn:Hrest'; [by apply elem_of_nil in Hx|].
      assert (Hy : following !! length tails = Some y).
      { rewrite <-(Nat.add_0_r (length tails)), <-lookup_drop, Hrest'. done. }
      assert (Hyin : y ∈ following) by (by eapply list_elem_of_lookup_2).
      assert (Hylen : length y = k) by (apply Hlen; rewrite Hdrop; by right).
      assert (Hplen : length (p ++ [q.2]) = k) by (apply Hlen; rewrite Hdrop; left).
      rewrite Hdrop in Hss. apply StronglySorted_cons in Hss as [Hhead Hfol].
      rewrite Forall_forall in Hhead. specialize (Hhead y Hyin).
      rewrite <-(take_drop (length tails) following), Hrest' in Hfol.
      apply StronglySorted_app_1_r, StronglySorted_cons in Hfol as [Hyall _].
      rewrite Forall_forall in Hyall.
      destruct y as [|y0 y'] using rev_ind.
      { rewrite length_app in Hplen. simpl in *. lia. }
      clear IHy'. rewrite !length_app in *. simpl in *.
      apply elem_of_cons in Hx as [Hx|Hx].
      + apply (Hstop _ Hy x). done.
      + apply (Hstop _ Hy y0). f_equal.
        eapply (tuple_lt_between p y' q.2 x y0); [lia|done|by apply Hyall]. }
    pose proof (Hin a Ha) as Ha'. pose proof (Hin b Hb) as Hb'.
    assert (Hts : StronglySorted Z.lt (q.2 :: tails)).
    { apply (StronglySorted_tails p). rewrite Hsplit in Hss.
      by apply StronglySorted_app_1_l in Hss. }
    destruct (StronglySorted_split _ a b Hts Ha' Hb' Hab) as (l1 & l2 & l3 & Heq).
    apply list_elem_of_fmap. exists (a, b). split; [done|].
    rewrite elem_of_py_sorted.
    pose proof (combinations2_intro l1 a l2 b l3) as Hc. by rewrite <-Heq in Hc.
  - right.
    assert (Hin : ∀ x, p ++ [x] ∈ drop i L →
                       p ++ [x] ∈ drop (i + length (q.2 :: tails)) L).
    { intros x Hx. rewrite Hsplit in Hx.
      apply elem_of_app in Hx as [Hx|Hx]; [|done].
      apply list_elem_of_fmap in Hx as (x' & [Hp _]%app_inj_tail & ?). done. }
    eapply (IH (i + length (q.2 :: tails))); eauto. simpl. lia.
Qed.

Lemma scan_block_raise first following e :
  scan_block first following = Raise e → e = ValueError ∧ [] ∈ following.
Proof.
  induction following as [|t following IH]; simpl; [done|].
  unfold unpack_last. destruct (last t) as [x|] eqn:Hl; simpl.
  - destruct (decide _); [|done].
    destruct (scan_block first following) as [tails|e']; simpl; [done|].
    intros [= <-]. destruct IH as [-> ?]; [done|]. split; [done|by right].
  - apply last_None in Hl as ->. intros [= <-]. split; [done|left].
Qed.

Lemma join_while_raise fuel L i e :
  join_while fuel L i = Raise e → e = ValueError ∧ [] ∈ L.
Proof.
  revert i. induction fuel as [|fuel IH]; intros i; [done|].
  rewrite join_while_S.
  destruct (drop i L) as [|itemset following] eqn:Hdrop; [done|].
  assert (Hsub : ∀ t, t ∈ itemset :: following → t ∈ L).
  { intros t Ht. rewrite <-Hdrop in Ht. by eapply subseteq_drop. }
  unfold unpack_last at 1. destruct (last itemset) as [x|] eqn:Hl; cbn [rbind].
  - destruct (scan_block _ following) as [tails|e'] eqn:Hs; cbn [rbind].
    + destruct (join_while fuel L _) as [rest|e'] eqn:Hrest; cbn [rbind]; [done|].
      intros [= <-]. by eapply IH.
    + intros [= <-]. apply scan_block_raise in Hs as [-> ?].
      split; [done|]. apply Hsub. by right.
  - apply last_None in Hl as ->. intros [= <-]. split; [done|]. apply Hsub. left.
Qed.

Lemma join_while_empty_tuple fuel L i :
  length L ≤ i + fuel → [] ∈ drop i L → join_while fuel L i = Raise ValueError.
Proof.
  revert i. induction fuel as [|fuel IH]; intros i Hfuel Hin.
  { rewrite drop_ge in Hin by lia. by apply elem_of_nil in Hin. }
  rewrite join_while_S.
  destruct (drop i L) as [|itemset following] eqn:Hdrop.
  { by apply elem_of_nil in Hin. }
  unfold unpack_last at 1. destruct (last itemset) as [x|] eqn:Hl; cbn [rbind]; [|done].
  destruct (scan_block _ following) as [tails|e'] eqn:Hs; cbn [rbind].
  - rewrite IH; [done|simpl; lia|].
    apply elem_of_cons in Hin as [<-|Hin]; [done|].
    apply scan_block_spec in Hs.
    rewrite <-(take_drop (length tails) following), <-Hs in Hin.
    apply elem_of_app in Hin as [Hin|Hin].
    + apply list_elem_of_fmap in Hin as (y & Hy & _). by destruct (removelast itemset).
    + rewrite <-drop_drop, Hdrop. done.
  - by apply scan_block_raise in Hs as [-> _].
Qed.

Lemma Sorted_snoc_inv (p : list Z) a b : Sorted Z.lt (p ++ [a; b]) → (a < b)%Z.
Proof.
  intros Hs%Sorted_StronglySorted; [|apply _].
  apply StronglySorted_app_1_r, StronglySorted_cons in Hs as [Hall _].
  by apply Forall_cons in Hall as [? _].
Qed.

Lemma scan_block_singletons (items : list Z) :
  scan_block [] ((λ i, [i]) <$> items) = Ok items.
Proof.
  induction items as [|x items IH]; [done|].
  csimpl. by rewrite IH.
Qed.

Lemma prune_step_short L cands :
  Forall (λ c : list Z, length c ≤ 2) cands → prune_step L cands = cands.
Proof.
  unfold prune_step. induction 1 as [|c cands Hc _ IH]; [done|].
  rewrite filter_cons, IH, decide_True; [done|].
  unfold passes_prune. by replace (length c - 2) with 0 by lia.
Qed.

(** X1.  Under its contract [join_step] returns exactly the self-join of
    its input: the tuples [p + (a, b)] with [a < b] for which both
    [p + (a,)] and [p + (b,)] are in the input. *)
Theorem join_step_self_join k L out :
  sorted_level k L → join_step L = Ok out →
  ∀ c, c ∈ out ↔ ∃ p a b, c = p ++ [a; b] ∧ (a < b)%Z
                          ∧ p ++ [a] ∈ L ∧ p ++ [b] ∈ L.
Proof.
  intros HL Hout c. split.
  - intros Hc. destruct (join_step_contract k L out c HL Hout Hc)
      as (p & a & b & ? & _ & ? & ? & ? & _). eauto 10.
  - intros (p & a & b & -> & Hab & Ha & Hb).
    eapply (join_while_complete (length L) L 0); eauto.
Qed.

Lemma join_step_self_join_witness :
  [1; 2; 3]%Z ∈ [[1; 2; 3]]%Z ↔
  ∃ p a b, [1; 2; 3]%Z = p ++ [a; b] ∧ (a < b)%Z
           ∧ p ++ [a] ∈ [[1; 2]; [1; 3]; [2; 3]]%Z
           ∧ p ++ [b] ∈ [[1; 2]; [1; 3]; [2; 3]]%Z.
Proof.
  apply (join_step_self_join 2 [[1; 2]; [1; 3]; [2; 3]]%Z).
  - split; repeat constructor; lia || reflexivity.
  - vm_compute. reflexivity.
Defined.

(** X2.  On a list without duplicates [join_step], and so [apriori_gen],
    yields no candidate twice. *)
Theorem candidates_no_duplicates L :
  NoDup L →
  (∀ out, join_step L = Ok out → NoDup out)
  ∧ (∀ C, apriori_gen L = Ok C → NoDup C).
Proof.
  intros HL. split.
  - intros out. by apply join_while_NoDup.
  - intros C (out & Hout & ->)%apriori_gen_Ok.
    apply NoDup_filter. by eapply join_while_NoDup.
Qed.

Lemma candidates_no_duplicates_witness :
  (∀ out, join_step [[2; 1]; [2; 3]; [1; 1]; [2; 2]]%Z = Ok out → NoDup out)
  ∧ (∀ C, apriori_gen [[2; 1]; [2; 3]; [1; 1]; [2; 2]]%Z = Ok C → NoDup C).
Proof.
  apply (candidates_no_duplicates [[2; 1]; [2; 3]; [1; 1]; [2; 2]]%Z).
  apply (bool_decide_unpack _). vm_compute. exact I.
Defined.

(** X3.  [join_step] raises exactly when its input holds an empty tuple,
    and what it raises then is the [ValueError] of the unpacking. *)
Theorem join_step_raises_iff L e :
  join_step L = Raise e ↔ e = ValueError ∧ [] ∈ L.
Proof.
  split.
  - apply join_while_raise.
  - intros [-> Hin]. by apply join_while_empty_tuple.
Qed.

(** X4.  Under the contract, for [k >= 1], [apriori_gen] returns exactly
    the strictly increasing tuples of length [k + 1] all of whose [k + 1]
    subsets obtained by removing one item are in the input. *)
Theorem apriori_gen_all_subsets k L :
  1 ≤ k → sorted_level k L →
  ∃ C, apriori_gen L = Ok C
    ∧ ∀ c, c ∈ C ↔ length c = k + 1 ∧ Sorted Z.lt c
                   ∧ ∀ i, i < k + 1 → remove_at i c ∈ L.
Proof.
  intros Hk HL. destruct (join_step_returns k L Hk HL) as [out Hout].
  exists (prune_step L out). split.
  { unfold apriori_gen. by rewrite Hout. }
  intros c. rewrite elem_of_prune_step. split.
  - intros [Hp Hc].
    destruct (join_step_contract k L out c HL Hout Hc)
      as (p & a & b & _ & _ & _ & _ & _ & Hlen & Hs).
    split_and!; [done..|]. intros i Hi.
    eapply join_prune_all_subsets; eauto. lia.
  - intros (Hlen & Hs & Hall).
    destruct c as [|b c0 _] using rev_ind; [simpl in Hlen; lia|].
    destruct c0 as [|a p _] using rev_ind.
    { simpl in Hlen. lia. }
    rewrite <-app_assoc in *. simpl in *.
    assert (Hp : k = S (length p)).
    { rewrite length_app in Hlen. simpl in Hlen. lia. }
    split.
    + apply Forall_forall. intros i [_ Hi]%elem_of_seq. apply Hall.
      rewrite length_app in Hi. simpl in Hi. lia.
    + eapply (join_while_complete (length L) L 0); eauto.
      * rewrite <-(remove_at_last p a b). apply Hall. lia.
      * rewrite <-(remove_at_second_last p a b). apply Hall. lia.
      * by eapply Sorted_snoc_inv.
Qed.

Lemma apriori_gen_all_subsets_witness :
  ∃ C, apriori_gen [[1; 2]; [1; 3]; [2; 3]]%Z = Ok C
    ∧ ∀ c, c ∈ C ↔ length c = 2 + 1 ∧ Sorted Z.lt c
                   ∧ ∀ i, i < 2 + 1 → remove_at i c ∈ [[1; 2]; [1; 3]; [2; 3]]%Z.
Proof.
  apply (apriori_gen_all_subsets 2 [[1; 2]; [1; 3]; [2; 3]]%Z).
  - lia.
  - split; repeat constructor; lia || reflexivity.
Defined.

(** X5.  From single items nothing is pruned: on the 1-tuples of a list of
    items [apriori_gen] returns every pair of two of them, as
    [sorted(itertools.combinations(items, 2))] lists them. *)
Theorem apriori_gen_singletons (items : list Z) :
  apriori_gen ((λ i, [i]) <$> items)
  = Ok ((λ ab : Z * Z, [ab.1; ab.2]) <$> py_sorted (combinations2 items)).
Proof.
  unfold apriori_gen, join_step. destruct items as [|x items]; [done|].
  rewrite length_fmap. cbn [length]. rewrite join_while_S, drop_0, fmap_cons.
  change (unpack_last [x]) with (Ok (A := list Z * Z) ([], x)).
  cbn [rbind fst snd]. rewrite scan_block_singletons. cbn [rbind].
  assert (Hrest : join_while (length items) ([x] :: ((λ i, [i]) <$> items))
                    (0 + length (x :: items)) = Ok []).
  { destruct (length items) eqn:Hn; [done|]. rewrite join_while_S.
    rewrite drop_ge; [done|]. cbn [length]. rewrite length_fmap. simpl. lia. }
  rewrite Hrest. cbn [rbind]. rewrite app_nil_r. f_equal.
  apply prune_step_short, Forall_fmap, Forall_forall.
  intros [a b] _. simpl. lia.
Qed.

(** ** Reasoning along the level-wise loop *)

Lemma level_step_cases rows n ms st :
  loop_inv rows n ms st →
  ∃ prev out,
    large_itemsets st !! (level_k st - 1) = Some prev
    ∧ join_step prev.*1 = Ok out
    ∧ let C' := filter (λ ic : list Z * nat, ge_support ms ic.2 n = true)
                       (count_candidates_all (prune_step prev.*1 out) rows) in
      (C' = [] ∧ level_step rows n ms st = Exit (Ok (large_itemsets st)))
      ∨ (C' ≠ [] ∧ ∃ use',
           level_step rows n ms st
           = Continue (LoopState (<[level_k st := py_sorted C']> (large_itemsets st))
                                 (S (level_k st)) use')).
Proof.
  intros [Hk Hdom Hlev Hmask]. unfold level_step.
  destruct (large_itemsets st !! (level_k st - 1)) as [prev|] eqn:Hprev.
  2: { destruct (proj2 (Hdom (level_k st - 1))) as [? Hsome]; [lia|congruence]. }
  pose proof (Hlev _ _ Hprev) as Hok. pose proof Hok as (Hne & Hnd & Hel).
  rewrite decide_False by done.
  destruct (apriori_gen_total prev.*1) as [C HC].
  { apply Forall_forall. intros s ([s' c] & -> & Hin)%list_elem_of_fmap.
    simpl. intros ->. destruct (Hel [] c Hin) as (Hlen & _). simpl in Hlen. lia. }
  rewrite HC. apply apriori_gen_Ok in HC as (out & Hjoin & ->).
  exists prev, out. split_and!; [done..|].
  destruct (count_candidates_spec (prune_step prev.*1 out) rows (use_transaction st))
    as (_ & _ & _ & Heq).
  assert (Hsound : mask_sound (prune_step prev.*1 out) rows (use_transaction st)).
  { eapply mask_sound_subseteq; [eapply mask_sound_join; eauto|].
    apply list_subseteq_filter. }
  cbv zeta in *. rewrite (Heq Hsound).
  pose proof (new_level_ok rows n ms (large_itemsets st) (level_k st) prev out
                Hk Hprev Hok Hjoin) as Hnew_level.
  cbv zeta in Hnew_level.
  destruct (decide (filter (λ ic : list Z * nat, ge_support ms ic.2 n = true)
                      (count_candidates_all (prune_step prev.*1 out) rows) = []))
    as [Hnil|Hcons]; [by left|].
  right. split; [done|]. destruct (Hnew_level Hcons) as (-> & _). eauto.
Qed.

(** An invariant [P] of the loop body holds of the state in which the loop
    exits, and that state holds the mapping that is returned. *)
Lemma level_loop_ind (P : loop_state → Prop) rows n ms :
  (∀ st st', loop_inv rows n ms st → P st →
             level_step rows n ms st = Continue st' → P st') →
  ∀ fuel st r, loop_inv rows n ms st → P st →
    level_loop fuel rows n ms st = Some r →
    ∃ st', loop_inv rows n ms st' ∧ P st'
           ∧ level_step rows n ms st' = Exit (Ok (large_itemsets st'))
           ∧ r = Ok (large_itemsets st').
Proof.
  intros Hstep fuel. induction fuel as [|fuel IH]; intros st r Hinv HP; [done|].
  simpl. pose proof (level_step_inv rows n ms st st Hinv (conj eq_refl eq_refl)) as Hs.
  destruct (level_step rows n ms st) as [st'|r'] eqn:Hst,
           (level_step_all rows n ms st) as [st2'|r2]; try done.
  - destruct Hs as (Hinv' & _). apply IH; [done|]. exact (Hstep st st' Hinv HP Hst).
  - destruct Hs as [-> _]. intros [= <-]. by exists st.
Qed.

Lemma mine_ind (P : loop_state → Prop) fuel rows ms r :
  (∀ st st', loop_inv rows (length rows) ms st → P st →
             level_step rows (length rows) ms st = Continue st' → P st') →
  (∀ large, large = filter (λ ic : Z * nat, ge_support ms ic.2 (length rows) = true)
                           (count_items rows).1 →
            large ≠ [] →
            P (LoopState {[ 1 := (λ ic : Z * nat, ([ic.1], ic.2)) <$> py_sorted large ]}
                         2 ∅)) →
  mine fuel rows ms = Some r →
  ∃ m, r = Ok (m, length rows)
       ∧ ((filter (λ ic : Z * nat, ge_support ms ic.2 (length rows) = true)
                  (count_items rows).1 = [] ∧ m = ∅)
          ∨ ∃ st, loop_inv rows (length rows) ms st ∧ P st
                  ∧ level_step rows (length rows) ms st = Exit (Ok (large_itemsets st))
                  ∧ m = large_itemsets st).
Proof.
  intros Hstep Hinit. rewrite mine_unfold. cbv zeta.
  destruct (decide _) as [Hnil|Hne].
  - intros [= <-]. exists ∅. split; [done|]. by left.
  - destruct (initial_inv rows ms Hne) as [_ Hinv].
    destruct (level_loop fuel _ _ _ _) as [r0|] eqn:Hloop; [|done].
    destruct (level_loop_ind P rows (length rows) ms Hstep _ _ _ Hinv
                (Hinit _ eq_refl Hne) Hloop) as (st & Hst & HP & Hexit & ->).
    intros [= <-]. exists (large_itemsets st). split; [done|]. right. eauto.
Qed.

(** ** The levels stay sorted *)

Lemma StronglySorted_sublist {A} (R : relation A) (l1 l2 : list A) :
  l1 `sublist_of` l2 → StronglySorted R l2 → StronglySorted R l1.
Proof.
  induction 1 as [|x l1 l2 Hsub IH|x l1 l2 Hsub IH]; [done| |].
  - intros [Hall Hs]%StronglySorted_cons. constructor; [by apply IH|].
    rewrite Forall_forall in *. intros y Hy. apply Hall. by eapply elem_of_sublist.
  - intros [_ Hs]%StronglySorted_cons. by apply IH.
Qed.

Lemma Sorted_lt_sublist (l1 l2 : list Z) :
  l1 `sublist_of` l2 → Sorted Z.lt l2 → Sorted Z.lt l1.
Proof.
  intros Hsub Hs. apply StronglySorted_Sorted.
  eapply StronglySorted_sublist; [done|]. by apply Sorted_StronglySorted; [apply _|].
Qed.

Lemma Sorted_lt_NoDup (l : list Z) : Sorted Z.lt l → NoDup l.
Proof.
  intros Hs%Sorted_StronglySorted; [|apply _].
  induction Hs as [|x l Hs IH Hall]; constructor; [|done].
  rewrite Forall_forall in Hall. intros Hin%Hall. lia.
Qed.

Lemma sorted_levels_initial (large : list (Z * nat)) :
  NoDup large.*1 →
  sorted_levels {[ 1 := (λ ic : Z * nat, ([ic.1], ic.2)) <$> py_sorted large ]}.
Proof.
  intros Hnd j lvl [<- <-]%lookup_singleton_Some.
  assert (Hkeys : ((λ ic : Z * nat, ([ic.1], ic.2)) <$> py_sorted large).*1
                  = (λ i : Z, [i]) <$> (py_sorted large).*1).
  { rewrite <-!list_fmap_compose. done. }
  rewrite Hkeys. split.
  - apply Forall_fmap, Forall_forall. intros i _. simpl. split; [done|].
    repeat constructor.
  - eapply Sorted_fmap; [|by apply py_sorted_pairs_keys].
    intros a b Hab. by apply tuple_lt_singleton.
Qed.

Lemma sorted_levels_step rows n ms st st' :
  loop_inv rows n ms st → sorted_levels (large_itemsets st) →
  level_step rows n ms st = Continue st' →
  sorted_levels (large_itemsets st').
Proof.
  intros Hinv Hsorted Hstep.
  destruct (level_step_cases rows n ms st Hinv) as (prev & out & Hprev & Hjoin & Hcases).
  cbv zeta in Hcases. destruct Hcases as [[_ Hex]|(Hne & use' & Hc)]; [congruence|].
  rewrite Hc in Hstep. injection Hstep as <-. simpl.
  intros j lvl [[<- <-]|[Hjk Hj]]%lookup_insert_Some; [|by apply Hsorted].
  pose proof (Hsorted _ _ Hprev) as HL. split.
  - apply Forall_forall. intros S ([S' c] & -> & Hin)%list_elem_of_fmap. simpl.
    rewrite elem_of_py_sorted in Hin. apply list_elem_of_filter in Hin as [_ Hin].
    apply count_candidates_all_elem in Hin as (HS & _).
    apply elem_of_prune_step in HS as [_ HS].
    destruct (join_step_contract _ _ _ _ HL Hjoin HS)
      as (p & a & b & _ & _ & _ & _ & _ & Hlen & Hs).
    pose proof (inv_k _ _ _ _ Hinv). split; [lia|done].
  - apply py_sorted_entries_keys.
    apply dict_wf_filter, count_candidates_all_wf.
Qed.

Lemma mine_sorted_levels fuel rows ms m n :
  mine fuel rows ms = Some (Ok (m, n)) → sorted_levels m.
Proof.
  intros Hmine.
  pose proof (mine_ind (λ st, sorted_levels (large_itemsets st)) fuel rows ms
                (Ok (m, n)) (sorted_levels_step rows (length rows) ms)) as Hind.
  destruct Hind as (m' & [= <- _] & [[_ ->]|(st & _ & Hs & _ & ->)]);
    [|exact Hmine| |done].
  - intros large -> _. apply sorted_levels_initial.
    apply dict_wf_filter. by destruct (count_items_spec rows) as (_ & ? & _).
  - intros j lvl. by rewrite lookup_empty.
Qed.

Lemma level_one_step rows n ms lvl1 st st' :
  loop_inv rows n ms st → large_itemsets st !! 1 = Some lvl1 →
  level_step rows n ms st = Continue st' →
  large_itemsets st' !! 1 = Some lvl1.
Proof.
  intros Hinv H1 Hstep.
  destruct (level_step_cases rows n ms st Hinv) as (prev & out & _ & _ & Hcases).
  cbv zeta in Hcases. destruct Hcases as [[_ Hex]|(_ & use' & Hc)]; [congruence|].
  rewrite Hc in Hstep. injection Hstep as <-. simpl.
  pose proof (inv_k _ _ _ _ Hinv). by rewrite lookup_insert_ne by lia.
Qed.

Lemma mine_level_one fuel rows ms m n :
  mine fuel rows ms = Some (Ok (m, n)) →
  let large := filter (λ ic : Z * nat, ge_support ms ic.2 (length rows) = true)
                      (count_items rows).1 in
  n = length rows
  ∧ ((large = [] ∧ m = ∅)
     ∨ (large ≠ []
        ∧ m !! 1 = Some ((λ ic : Z * nat, ([ic.1], ic.2)) <$> py_sorted large))).
Proof.
  intros Hmine large.
  pose proof (mine_ind
    (λ st, large ≠ [] ∧ large_itemsets st !! 1
           = Some ((λ ic : Z * nat, ([ic.1], ic.2)) <$> py_sorted large))
    fuel rows ms (Ok (m, n))) as Hind.
  destruct Hind as (m' & Heq & Hcases); [| |exact Hmine|].
  - intros st st' Hinv [? H1] Hstep. split; [done|]. by eapply level_one_step.
  - intros l -> Hne. split; [done|]. simpl. apply lookup_singleton_eq.
  - injection Heq as -> ->. split; [done|].
    destruct Hcases as [[? ->]|(st & _ & [? ?] & _ & ->)]; [by left|by right].
Qed.

Lemma large_items_elem rows ms i c :
  (i, c) ∈ filter (λ ic : Z * nat, ge_support ms ic.2 (length rows) = true)
                  (count_items rows).1
  ↔ c = occurrences rows i ∧ 0 < c ∧ ge_support ms c (length rows) = true.
Proof.
  destruct (count_items_spec rows) as (_ & Hwf & Hcnt).
  rewrite list_elem_of_filter, (dict_wf_elem _ _ _ Hwf), Hcnt. simpl. naive_solver.
Qed.

(** X6.  The mapping that is returned holds the levels 1 to [K] for some
    [K], without a gap; no level is empty, no itemset occurs twice in a
    level, and every count is positive and passed the test against
    [min_support] with the transaction count that is returned. *)
Theorem result_levels_contiguous fuel t x m n :
  itemsets_from_transactions fuel t (Number x) = Some (Ok (m, n)) →
  ∃ K, (∀ j, is_Some (m !! j) ↔ 1 ≤ j ≤ K)
     ∧ ∀ j lvl, m !! j = Some lvl →
         lvl ≠ [] ∧ NoDup lvl.*1
         ∧ ∀ S c, (S, c) ∈ lvl → 0 < c ∧ ge_support x c n = true.
Proof.
  intros (rows & x' & _ & [= <-] & _ & Hmine)%itemsets_Ok.
  destruct (mine_result _ _ _ _ Hmine) as (m' & [= <- ->] & [->|(st & Hinv & ->)]).
  - exists 0. split.
    + intros j. rewrite lookup_empty. split; [by intros [? ?]|lia].
    + intros j lvl. by rewrite lookup_empty.
  - exists (level_k st - 1). split.
    + intros j. rewrite (inv_dom _ _ _ _ Hinv). pose proof (inv_k _ _ _ _ Hinv). lia.
    + intros j lvl Hj. destruct (inv_levels _ _ _ _ Hinv _ _ Hj) as (? & ? & Hel).
      split_and!; [done..|]. intros S c Hin.
      by destruct (Hel S c Hin) as (_ & _ & ? & ? & _).
Qed.

Lemma result_levels_contiguous_witness :
  ∃ K, (∀ j, is_Some (paper_itemsets !! j) ↔ 1 ≤ j ≤ K)
     ∧ ∀ j lvl, paper_itemsets !! j = Some lvl →
         lvl ≠ [] ∧ NoDup lvl.*1
         ∧ ∀ S c, (S, c) ∈ lvl → 0 < c ∧ ge_support support_0_4 c 4 = true.
Proof.
  apply (result_levels_contiguous 3 (Iterable paper_transactions) support_0_4).
  vm_compute. reflexivity.
Defined.

(** X7.  Every level that is returned meets the contract of [join_step]:
    the keys of level [j] are strictly increasing tuples of length [j],
    stored in strictly increasing order. *)
Theorem result_levels_sorted fuel t ms m n :
  itemsets_from_transactions fuel t ms = Some (Ok (m, n)) →
  ∀ j lvl, m !! j = Some lvl →
    Forall (λ S, length S = j ∧ Sorted Z.lt S) lvl.*1 ∧ Sorted tuple_lt lvl.*1.
Proof.
  intros (rows & x & _ & _ & _ & Hmine)%itemsets_Ok j lvl Hj.
  by apply (mine_sorted_levels _ _ _ _ _ Hmine).
Qed.

Lemma result_levels_sorted_witness :
  Forall (λ S, length S = 2 ∧ Sorted Z.lt S)
         [([1; 3]%Z, 2); ([2; 3]%Z, 2); ([2; 5]%Z, 3); ([3; 5]%Z, 2)].*1
  ∧ Sorted tuple_lt [([1; 3]%Z, 2); ([2; 3]%Z, 2); ([2; 5]%Z, 3); ([3; 5]%Z, 2)].*1.
Proof.
  refine (result_levels_sorted 3 (Iterable paper_transactions) (Number support_0_4)
            paper_itemsets 4 _ 2 _ _).
  - vm_compute. reflexivity.
  - reflexivity.
Defined.

(** X8.  Level 1 holds exactly the items whose number of occurrences is
    positive and passes the test against [min_support], each with that
    number; and the mapping that is returned is empty exactly when there is
    no such item. *)
Theorem level_one_exact fuel t x rows m n :
  accepted_rows t = Some rows →
  itemsets_from_transactions fuel t (Number x) = Some (Ok (m, n)) →
  (∀ i c, (∃ lvl, m !! 1 = Some lvl ∧ ([i], c) ∈ lvl)
          ↔ c = occurrences rows i ∧ 0 < c ∧ ge_support x c n = true)
  ∧ (m = ∅ ↔ ∀ i, 0 < occurrences rows i →
                  ge_support x (occurrences rows i) n = false).
Proof.
  intros Hacc (rows' & x' & Hacc' & [= <-] & _ & Hmine)%itemsets_Ok.
  assert (rows' = rows) as -> by congruence.
  destruct (mine_level_one _ _ _ _ _ Hmine) as (-> & Hcases). cbv zeta in Hcases.
  assert (Hlvl : ∀ i c l,
            ([i], c) ∈ (λ ic : Z * nat, ([ic.1], ic.2)) <$> py_sorted l ↔ (i, c) ∈ l).
  { intros i c l. rewrite list_elem_of_fmap. split.
    - intros ([i' c'] & [= <- <-] & Hin). by rewrite elem_of_py_sorted in Hin.
    - intros Hin. exists (i, c). by rewrite elem_of_py_sorted. }
  destruct Hcases as [[Hnil ->]|[Hne H1]].
  - split.
    + intros i c. rewrite lookup_empty. split; [by intros (? & ? & _)|].
      intros Hic%large_items_elem. rewrite Hnil in Hic. by apply elem_of_nil in Hic.
    + split; [|done]. intros _ i Hpos. apply not_true_iff_false. intros Hge.
      assert (Hin : (i, occurrences rows i) ∈ @nil (Z * nat)).
      { rewrite <-Hnil. by apply large_items_elem. }
      by apply elem_of_nil in Hin.
  - split.
    + intros i c. rewrite H1, <-large_items_elem. split.
      * intros (lvl & [= <-] & Hin). by apply Hlvl in Hin.
      * intros Hin. eexists. split; [done|]. by apply Hlvl.
    + split; [intros Hm; by rewrite Hm, lookup_empty in H1|].
      intros Hall. exfalso.
      destruct (filter _ (count_items rows).1) as [|[i c] l] eqn:Hf; [done|].
      assert (Hin : (i, c) ∈ (i, c) :: l) by left.
      rewrite <-Hf in Hin. apply large_items_elem in Hin as (-> & Hpos & Hge).
      by rewrite (Hall i Hpos) in Hge.
Qed.

Lemma level_one_exact_witness :
  (∀ i c, (∃ lvl, paper_itemsets !! 1 = Some lvl ∧ ([i], c) ∈ lvl)
          ↔ c = occurrences (py_set <$> paper_transactions) i ∧ 0 < c
            ∧ ge_support support_0_4 c 4 = true)
  ∧ (paper_itemsets = ∅ ↔
     ∀ i, 0 < occurrences (py_set <$> paper_transactions) i →
          ge_support support_0_4 (occurrences (py_set <$> paper_transactions) i) 4
          = false).
Proof.
  apply (level_one_exact 3 (Iterable paper_transactions) support_0_4
           (py_set <$> paper_transactions) paper_itemsets 4).
  - reflexivity.
  - vm_compute. reflexivity.
Defined.

(** X9.  For a collection every count that is returned lies between 1 and
    the transaction count that is returned, so every support is at most 1. *)
Theorem collection_counts_bounded fuel ts ms m n :
  itemsets_from_transactions fuel (Iterable ts) ms = Some (Ok (m, n)) →
  ∀ j lvl S c, m !! j = Some lvl → (S, c) ∈ lvl → 1 ≤ c ≤ n.
Proof.
  intros (rows & x & Hacc & _ & _ & Hmine)%itemsets_Ok j lvl S c Hj Hin.
  destruct (mine_result _ _ _ _ Hmine) as (m' & [= <- ->] & [->|(st & Hinv & ->)]).
  { by rewrite lookup_empty in Hj. }
  destruct (inv_levels _ _ _ _ Hinv _ _ Hj) as (_ & _ & Hel).
  destruct (Hel S c Hin) as (_ & _ & Hpos & _ & Hone & Hmore).
  destruct (accepted_given _ _ Hacc) as (_ & _ & _ & Hnd & _).
  split; [lia|].
  assert (Hle : ∀ S', support_count rows S' ≤ length rows).
  { intros S'. apply length_filter. }
  destruct (decide (j = 1)) as [->|Hne].
  - destruct (Hone eq_refl) as (i & -> & ->).
    rewrite support_count_singleton_nodup by eauto. apply Hle.
  - destruct Hmore as [-> _]; [|apply Hle].
    pose proof (proj1 (inv_dom _ _ _ _ Hinv j) (mk_is_Some _ _ Hj)). lia.
Qed.

Lemma collection_counts_bounded_witness : 1 ≤ 2 ≤ 4.
Proof.
  refine (collection_counts_bounded 3 paper_transactions (Number support_0_4)
            paper_itemsets 4 _ 3 [([2; 3; 5]%Z, 2)] [2; 3; 5]%Z 2 _ _).
  - vm_compute. reflexivity.
  - reflexivity.
  - left.
Defined.

(** ** All frequent itemsets are found *)

Lemma support_count_le_length rows (S : list Z) : support_count rows S ≤ length rows.
Proof. apply length_filter. Qed.

Lemma frequent_subset rows ms (S S' : list Z) :
  threshold_monotone ms (length rows) → S' ⊆ S →
  frequent rows (length rows) ms S → frequent rows (length rows) ms S'.
Proof.
  intros Hmono Hsub [Hpos Hge].
  pose proof (support_count_mono rows S S' Hsub).
  split; [lia|]. eapply Hmono; [|apply support_count_le_length|exact Hge]. done.
Qed.

Lemma Sorted_lt_two_last (S : list Z) :
  2 ≤ length S → ∃ p a b, S = p ++ [a; b].
Proof.
  intros Hlen. destruct S as [|b S0 _] using rev_ind; [simpl in Hlen; lia|].
  destruct S0 as [|a p _] using rev_ind.
  { simpl in Hlen. lia. }
  exists p, a, b. by rewrite <-app_assoc.
Qed.

(** A frequent itemset of the length the loop is building is among the
    candidates that are counted and kept. *)
Lemma frequent_candidate rows ms st prev out S :
  loop_inv rows (length rows) ms st →
  sorted_levels (large_itemsets st) →
  complete_below rows (length rows) ms st →
  threshold_monotone ms (length rows) →
  large_itemsets st !! (level_k st - 1) = Some prev →
  join_step prev.*1 = Ok out →
  Sorted Z.lt S → length S = level_k st → frequent rows (length rows) ms S →
  (S, support_count rows S)
  ∈ filter (λ ic : list Z * nat, ge_support ms ic.2 (length rows) = true)
           (count_candidates_all (prune_step prev.*1 out) rows).
Proof.
  intros Hinv Hsorted Hcomp Hmono Hprev Hjoin HS Hlen Hfreq.
  pose proof (inv_k _ _ _ _ Hinv) as Hk.
  pose proof (Hsorted _ _ Hprev) as HL.
  destruct (inv_levels _ _ _ _ Hinv _ _ Hprev) as (_ & Hnd & _).
  assert (Hsubs : ∀ i, i < length S → remove_at i S ∈ prev.*1).
  { intros i Hi. pose proof (remove_at_length i S Hi) as Hrl.
    destruct (Hcomp (remove_at i S)) as (lvl & Hlvl & Hin).
    - eapply Sorted_lt_sublist; [apply remove_at_sublist|done].
    - lia.
    - eapply frequent_subset; [done|apply remove_at_subseteq|done].
    - replace (length (remove_at i S)) with (level_k st - 1) in Hlvl by lia.
      assert (lvl = prev) as -> by congruence.
      apply list_elem_of_fmap. by eexists (_, _). }
  destruct (Sorted_lt_two_last S) as (p & a & b & ->); [lia|].
  assert (Hp : level_k st = S (S (length p))).
  { rewrite length_app in Hlen. simpl in Hlen. lia. }
  assert (Hout : p ++ [a; b] ∈ out).
  { eapply (join_while_complete (length prev.*1) prev.*1 0); eauto.
    - rewrite <-(remove_at_last p a b). apply Hsubs. lia.
    - rewrite <-(remove_at_second_last p a b). apply Hsubs. lia.
    - by eapply Sorted_snoc_inv. }
  destruct Hfreq as [Hpos Hge].
  apply list_elem_of_filter. split; [done|].
  apply count_candidates_all_complete; [| |done].
  - apply NoDup_filter. by eapply join_while_NoDup.
  - apply elem_of_prune_step. split; [|done].
    apply Forall_forall. intros i [_ Hi]%elem_of_seq. apply Hsubs. lia.
Qed.

Lemma complete_below_step rows ms st st' :
  threshold_monotone ms (length rows) →
  loop_inv rows (length rows) ms st →
  sorted_levels (large_itemsets st) ∧ complete_below rows (length rows) ms st →
  level_step rows (length rows) ms st = Continue st' →
  sorted_levels (large_itemsets st') ∧ complete_below rows (length rows) ms st'.
Proof.
  intros Hmono Hinv [Hsorted Hcomp] Hstep.
  split; [by eapply sorted_levels_step|].
  destruct (level_step_cases rows _ ms st Hinv) as (prev & out & Hprev & Hjoin & Hcases).
  cbv zeta in Hcases. destruct Hcases as [[_ Hex]|(Hne & use' & Hc)]; [congruence|].
  rewrite Hc in Hstep. injection Hstep as <-.
  intros S HS Hlen Hfreq. simpl in *.
  destruct (decide (length S = level_k st)) as [Heq|Hneq].
  - rewrite Heq, lookup_insert_eq. eexists. split; [done|].
    rewrite elem_of_py_sorted. by eapply frequent_candidate.
  - rewrite lookup_insert_ne by done. apply Hcomp; [done|lia|done].
Qed.

Lemma complete_at_exit rows ms st S :
  threshold_monotone ms (length rows) →
  loop_inv rows (length rows) ms st →
  sorted_levels (large_itemsets st) → complete_below rows (length rows) ms st →
  level_step rows (length rows) ms st = Exit (Ok (large_itemsets st)) →
  Sorted Z.lt S → frequent rows (length rows) ms S →
  length S < level_k st.
Proof.
  intros Hmono Hinv Hsorted Hcomp Hexit HS Hfreq.
  destruct (decide (length S < level_k st)) as [|Hge]; [done|]. exfalso.
  destruct (level_step_cases rows _ ms st Hinv) as (prev & out & Hprev & Hjoin & Hcases).
  cbv zeta in Hcases. destruct Hcases as [[Hnil _]|(_ & use' & Hc)]; [|congruence].
  assert (Hin : (take (level_k st) S, support_count rows (take (level_k st) S))
                ∈ @nil (list Z * nat)).
  { rewrite <-Hnil. eapply frequent_candidate; eauto.
    - eapply Sorted_lt_sublist; [apply sublist_take|done].
    - apply length_take_le. lia.
    - eapply frequent_subset; [done|apply subseteq_take|done]. }
  by apply elem_of_nil in Hin.
Qed.

Lemma complete_below_initial rows ms :
  Forall NoDup rows →
  let large := filter (λ ic : Z * nat, ge_support ms ic.2 (length rows) = true)
                      (count_items rows).1 in
  complete_below rows (length rows) ms
    (LoopState {[ 1 := (λ ic : Z * nat, ([ic.1], ic.2)) <$> py_sorted large ]} 2 ∅).
Proof.
  intros Hnd large S HS Hlen [Hpos Hge]. simpl in *.
  destruct S as [|i [|??]]; simpl in Hlen; try lia. simpl.
  rewrite lookup_singleton_eq. eexists. split; [done|].
  apply list_elem_of_fmap. exists (i, support_count rows [i]). split; [done|].
  rewrite elem_of_py_sorted. apply large_items_elem.
  by rewrite support_count_singleton_nodup.
Qed.

Lemma mine_complete fuel rows ms m n S :
  Forall NoDup rows → threshold_monotone ms (length rows) →
  mine fuel rows ms = Some (Ok (m, n)) →
  S ≠ [] → Sorted Z.lt S → frequent rows (length rows) ms S →
  ∃ lvl, m !! length S = Some lvl ∧ (S, support_count rows S) ∈ lvl.
Proof.
  intros Hnd Hmono Hmine Hne HS Hfreq.
  pose proof (mine_ind
    (λ st, sorted_levels (large_itemsets st)
           ∧ complete_below rows (length rows) ms st)
    fuel rows ms (Ok (m, n))) as Hind.
  destruct Hind as (m' & Heq & Hcases); [| |exact Hmine|].
  - intros st st' Hinv HP Hstep. by eapply complete_below_step.
  - intros large -> Hlarge. split; [|by apply complete_below_initial].
    apply sorted_levels_initial, dict_wf_filter.
    by destruct (count_items_spec rows) as (_ & ? & _).
  - injection Heq as -> ->.
    destruct Hcases as [[Hnil ->]|(st & Hinv & [Hsorted Hcomp] & Hexit & ->)].
    + exfalso. destruct S as [|i S]; [done|].
      assert (Hi : frequent rows (length rows) ms [i]).
      { eapply frequent_subset; [done| |exact Hfreq].
        intros x ->%list_elem_of_singleton. left. }
      destruct Hi as [Hpos Hge].
      assert (Hin : (i, support_count rows [i]) ∈ @nil (Z * nat)).
      { rewrite <-Hnil. apply large_items_elem.
        by rewrite support_count_singleton_nodup. }
      by apply elem_of_nil in Hin.
    + apply Hcomp; [done| |done]. split.
      * destruct S; [done|simpl; lia].
      * by eapply complete_at_exit.
Qed.

(** X10.  For a collection, and a threshold test that does not turn false
    when the count grows, the result is exactly the set of frequent
    itemsets: a tuple [S] is stored (at level [len(S)]) with count [c] if
    and only if [S] is a non-empty strictly increasing tuple, [c] is the
    number of transactions that contain [S], [c] is positive, and
    [c / num_transactions >= min_support]. *)
Theorem frequent_itemsets_exact fuel ts x m n :
  itemsets_from_transactions fuel (Iterable ts) (Number x) = Some (Ok (m, n)) →
  threshold_monotone x n →
  ∀ S c, (∃ lvl, m !! length S = Some lvl ∧ (S, c) ∈ lvl)
         ↔ S ≠ [] ∧ Sorted Z.lt S ∧ c = support_count ts S ∧ 0 < c
           ∧ ge_support x c n = true.
Proof.
  intros (rows & x' & Hacc & [= <-] & _ & Hmine)%itemsets_Ok Hmono S c.
  destruct (mine_result _ _ _ _ Hmine) as (m' & Heq & Hm).
  injection Heq as <- ->.
  destruct (accepted_given _ _ Hacc) as (ts' & [= <-] & Hsup & Hnd & _).
  specialize (Hnd (ex_intro _ ts eq_refl)).
  split.
  - intros (lvl & Hlvl & Hin).
    destruct Hm as [->|(st & Hinv & ->)]; [by rewrite lookup_empty in Hlvl|].
    destruct (loop_inv_counts _ _ _ _ _ _ S c Hinv Hlvl Hin)
      as (_ & Hk1 & _ & Hge & Hone & Hmore).
    destruct (inv_levels _ _ _ _ Hinv _ _ Hlvl) as (_ & _ & Hel).
    destruct (Hel S c Hin) as (_ & _ & Hpos & _).
    assert (HS : S ≠ []) by (intros ->; simpl in Hk1; lia).
    assert (Hsorted : Sorted Z.lt S).
    { destruct (mine_sorted_levels _ _ _ _ _ Hmine _ _ Hlvl) as [Hall _].
      rewrite Forall_forall in Hall. apply (Hall S).
      apply list_elem_of_fmap. by exists (S, c). }
    split_and!; [done|done| |done|done].
    rewrite <-Hsup by done.
    destruct (decide (length S = 1)) as [H1|H1].
    + destruct (Hone H1) as (i & -> & ->). by apply support_count_singleton_nodup.
    + apply Hmore. lia.
  - intros (HS & Hsorted & -> & Hpos & Hge). rewrite <-Hsup in * by done.
    by eapply mine_complete.
Qed.

Lemma frequent_itemsets_exact_witness :
  (∃ lvl, paper_itemsets !! length [2; 5]%Z = Some lvl ∧ ([2; 5]%Z, 3) ∈ lvl)
  ↔ [2; 5]%Z ≠ [] ∧ Sorted Z.lt [2; 5]%Z
    ∧ 3 = support_count paper_transactions [2; 5]%Z ∧ 0 < 3
    ∧ ge_support support_0_4 3 4 = true.
Proof.
  apply (frequent_itemsets_exact 3 paper_transactions support_0_4 paper_itemsets 4).
  - vm_compute. reflexivity.
  - intros c c' Hle Hn.
    destruct c' as [|[|[|[|[|?]]]]]; [| | | | |lia];
      destruct c as [|[|[|[|[|?]]]]]; try lia; vm_compute; congruence.
Defined.

(** ** What the result depends on *)

Lemma same_items_nonempty (t t' : list Z) :
  same_items t t' → 0 < length t ↔ 0 < length t'.
Proof.
  intros Hsame. destruct t as [|x t], t' as [|x' t']; simpl; try lia.
  - exfalso. apply (not_elem_of_nil x'), Hsame. left.
  - exfalso. apply (not_elem_of_nil x), Hsame. left.
Qed.

Lemma normalized_perm ts ts' :
  Forall2 same_items ts ts' →
  Forall2 (≡ₚ) (py_set <$> filter (λ t : list Z, 0 < length t) ts)
               (py_set <$> filter (λ t : list Z, 0 < length t) ts').
Proof.
  induction 1 as [|t t' ts ts' Ht _ IH]; [constructor|].
  rewrite !filter_cons. pose proof (same_items_nonempty t t' Ht) as Hlen.
  destruct (decide (0 < length t)) as [Hl|Hl].
  - rewrite decide_True by (by apply Hlen). csimpl. constructor; [|done].
    apply NoDup_Permutation; [apply NoDup_remove_dups..|].
    intros i. unfold py_set. rewrite !elem_of_remove_dups. apply Ht.
  - rewrite decide_False by (by rewrite <-Hlen). done.
Qed.

Lemma dict_wf_perm_keys `{EqDecision K} (d d' : list (K * nat)) :
  dict_wf d → dict_wf d' → (∀ k, cnt k d = cnt k d') → d ≡ₚ d'.
Proof.
  intros Hwf Hwf' Hcnt. apply NoDup_Permutation.
  - eapply NoDup_fmap_1, Hwf.
  - eapply NoDup_fmap_1, Hwf'.
  - intros [k c]. rewrite !dict_wf_elem by done. by rewrite Hcnt.
Qed.

Lemma occurrences_rows_perm rows rows' i :
  rows ≡ₚ rows' → occurrences rows i = occurrences rows' i.
Proof.
  induction 1 as [|t rows rows' _ IH|t t' rows|rows rows1 rows' _ IH1 _ IH2].
  - done.
  - by rewrite !occurrences_cons, IH.
  - rewrite !occurrences_cons. lia.
  - by rewrite IH1.
Qed.

Lemma sum_matches_rows_perm C rows rows' c :
  rows ≡ₚ rows' →
  sum_list ((λ t, matches C t c) <$> rows) = sum_list ((λ t, matches C t c) <$> rows').
Proof.
  induction 1 as [|t rows rows' _ IH|t t' rows|rows rows1 rows' _ IH1 _ IH2]; csimpl.
  - done.
  - by rewrite IH.
  - lia.
  - by rewrite IH1.
Qed.

Lemma count_candidates_all_rows_perm C rows rows' :
  rows ≡ₚ rows' → count_candidates_all C rows ≡ₚ count_candidates_all C rows'.
Proof.
  intros Hp. apply dict_wf_perm_keys; [apply count_candidates_all_wf..|].
  intros c. unfold count_candidates_all.
  destruct (count_candidates_all_from C rows []) as [_ ->].
  destruct (count_candidates_all_from C rows' []) as [_ ->].
  f_equal. by apply sum_matches_rows_perm.
Qed.

Lemma filter_nil_perm {A} (P : A → Prop) `{∀ x, Decision (P x)} (l l' : list A) :
  l ≡ₚ l' → filter P l = [] → filter P l' = [].
Proof.
  intros Hp Hnil. apply Permutation_nil_r. by rewrite <-Hp, Hnil.
Qed.

Lemma level_step_all_rows_perm rows rows' n ms st :
  rows ≡ₚ rows' → level_step_all rows n ms st = level_step_all rows' n ms st.
Proof.
  intros Hp. unfold level_step_all.
  destruct (large_itemsets st !! (level_k st - 1)) as [prev|]; [|done].
  destruct (decide (prev = [])); [done|].
  destruct (apriori_gen prev.*1) as [C|]; [|done]. cbv zeta.
  pose proof (count_candidates_all_rows_perm C rows rows' Hp) as Hc.
  assert (Hs : py_sorted (filter (λ ic : list Z * nat, ge_support ms ic.2 n = true)
                                 (count_candidates_all C rows))
               = py_sorted (filter (λ ic : list Z * nat, ge_support ms ic.2 n = true)
                                   (count_candidates_all C rows'))).
  { apply py_sorted_entries_perm. by rewrite Hc. }
  destruct (decide (filter _ (count_candidates_all C rows) = [])) as [Hnil|Hne],
           (decide (filter _ (count_candidates_all C rows') = [])) as [Hnil'|Hne'].
  - done.
  - destruct Hne'. by eapply filter_nil_perm.
  - destruct Hne. by eapply filter_nil_perm.
  - by rewrite Hs.
Qed.

Lemma level_loop_all_rows_perm fuel rows rows' n ms st :
  rows ≡ₚ rows' →
  level_loop_all fuel rows n ms st = level_loop_all fuel rows' n ms st.
Proof.
  intros Hp. revert st. induction fuel as [|fuel IH]; intros st; [done|].
  simpl. rewrite (level_step_all_rows_perm rows rows') by done.
  destruct (level_step_all rows' n ms st); [apply IH|done].
Qed.

Lemma mine_rows_perm fuel rows rows' ms :
  rows ≡ₚ rows' → mine fuel rows ms = mine fuel rows' ms.
Proof.
  intros Hp. rewrite !mine_eq_all, !mine_all_unfold. cbv zeta.
  rewrite <-(Permutation_length Hp).
  assert (Hcounts : (count_items rows).1 ≡ₚ (count_items rows').1).
  { destruct (count_items_spec rows) as (_ & Hwf & Hcnt).
    destruct (count_items_spec rows') as (_ & Hwf' & Hcnt').
    apply dict_wf_perm_keys; [done..|].
    intros i. rewrite Hcnt, Hcnt'. by apply occurrences_rows_perm. }
  assert (Hlarge :
     py_sorted (filter (λ ic : Z * nat, ge_support ms ic.2 (length rows) = true)
                       (count_items rows).1)
     = py_sorted (filter (λ ic : Z * nat, ge_support ms ic.2 (length rows) = true)
                         (count_items rows').1)).
  { apply py_sorted_pairs_perm. by rewrite Hcounts. }
  destruct (decide (filter _ (count_items rows).1 = [])) as [Hnil|Hne],
           (decide (filter _ (count_items rows').1 = [])) as [Hnil'|Hne'].
  - done.
  - destruct Hne'. by eapply filter_nil_perm.
  - destruct Hne. by eapply filter_nil_perm.
  - rewrite Hlarge. by rewrite (level_loop_all_rows_perm fuel rows rows').
Qed.

(** X11.  A collection's transactions count as sets: two collections whose
    transactions hold, one by one, the same items (in any order, with any
    repetitions) give the same outcome. *)
Theorem collection_items_as_sets fuel ts ts' ms :
  Forall2 same_items ts ts' →
  itemsets_from_transactions fuel (Iterable ts) ms
  = itemsets_from_transactions fuel (Iterable ts') ms.
Proof.
  intros Hsame%normalized_perm. unfold itemsets_from_transactions, sanitize.
  destruct ms as [x| |]; [|done..]. simpl.
  destruct (PrimFloat.leb 0 x && PrimFloat.leb x 1); [|done].
  by apply mine_set_order.
Qed.

Lemma collection_items_as_sets_witness :
  itemsets_from_transactions 3 (Iterable [[1; 2; 1]; []; [3; 2]]%Z) (Number 0.5%float)
  = itemsets_from_transactions 3 (Iterable [[2; 1]; []; [2; 3; 3]]%Z) (Number 0.5%float).
Proof.
  apply (collection_items_as_sets 3 [[1; 2; 1]; []; [3; 2]]%Z
           [[2; 1]; []; [2; 3; 3]]%Z (Number 0.5%float)).
  repeat (apply List.Forall2_cons;
            [intros i; rewrite ?elem_of_cons, ?elem_of_nil; tauto|]).
  apply List.Forall2_nil.
Defined.

(** X12.  The outcome does not depend on the order of the transactions, for
    a collection and for a callable. *)
Theorem transaction_order_irrelevant fuel ts ts' ms :
  ts ≡ₚ ts' →
  itemsets_from_transactions fuel (Iterable ts) ms
  = itemsets_from_transactions fuel (Iterable ts') ms
  ∧ itemsets_from_transactions fuel (Callable (Generator ts)) ms
    = itemsets_from_transactions fuel (Callable (Generator ts')) ms.
Proof.
  intros Hp. unfold itemsets_from_transactions, sanitize.
  destruct ms as [x| |]; [|done..]. simpl.
  destruct (PrimFloat.leb 0 x && PrimFloat.leb x 1); [|done].
  split; apply mine_rows_perm; [|done]. by rewrite Hp.
Qed.

Lemma transaction_order_irrelevant_witness :
  itemsets_from_transactions 3 (Iterable [[1; 2]; [3]; [2; 3]]%Z) (Number 0.5%float)
  = itemsets_from_transactions 3 (Iterable [[3]; [2; 3]; [1; 2]]%Z) (Number 0.5%float)
  ∧ itemsets_from_transactions 3 (Callable (Generator [[1; 2]; [3]; [2; 3]]%Z))
                               (Number 0.5%float)
    = itemsets_from_transactions 3 (Callable (Generator [[3]; [2; 3]; [1; 2]]%Z))
                                 (Number 0.5%float).
Proof.
  apply (transaction_order_irrelevant 3 [[1; 2]; [3]; [2; 3]]%Z
           [[3]; [2; 3]; [1; 2]]%Z (Number 0.5%float)).
  apply (Permutation_cons_append [[3]; [2; 3]]%Z [1; 2]%Z).
Defined.

(** X13.  Also on input that does not meet the contract (unsorted, with
    duplicates), [join_step] emits nothing but tuples [p + (a, b)] for
    which [p + (a,)] and then [p + (b,)] occur in the input, in this
    order; a candidate is one item longer than these two. *)
Theorem join_step_only_joins L out c :
  join_step L = Ok out → c ∈ out →
  ∃ p a b l1 l2 l3,
    c = p ++ [a; b] ∧ L = l1 ++ (p ++ [a]) :: l2 ++ (p ++ [b]) :: l3
    ∧ length c = S (length (p ++ [a])).
Proof.
  intros Hout Hc.
  destruct (join_step_elem L out c Hout Hc) as (p & a & b & l1 & l2 & l3 & -> & HL).
  exists p, a, b, l1, l2, l3. split_and!; [done..|].
  rewrite !length_app. simpl. lia.
Qed.

Lemma join_step_only_joins_witness :
  ∃ p a b l1 l2 l3,
    [3; 2; 1]%Z = p ++ [a; b]
    ∧ [[3; 2]; [3; 1]; [1; 1]; [3; 2]]%Z = l1 ++ (p ++ [a]) :: l2 ++ (p ++ [b]) :: l3
    ∧ length [3; 2; 1]%Z = S (length (p ++ [a])).
Proof.
  apply (join_step_only_joins [[3; 2]; [3; 1]; [1; 1]; [3; 2]]%Z [[3; 2; 1]]%Z).
  - vm_compute. reflexivity.
  - left.
Defined.

(** X14.  For a callable every transaction that is yielded is counted, the
    empty ones included: the transaction count that is returned is the
    number of transactions the generator yields. *)
Theorem callable_counts_every_transaction fuel ts ms m n :
  itemsets_from_transactions fuel (Callable (Generator ts)) ms = Some (Ok (m, n)) →
  n = length ts.
Proof.
  intros (rows & x & [= <-] & _ & _ & Hmine)%itemsets_Ok.
  by destruct (mine_result _ _ _ _ Hmine) as (m' & [= _ ->] & _).
Qed.

Lemma callable_counts_every_transaction_witness :
  3 = length [[]; [1]; []]%Z.
Proof.
  apply (callable_counts_every_transaction 1 [[]; [1]; []]%Z (Number 0.25%float)
           {[ 1 := [([1]%Z, 1)] ]} 3).
  vm_compute. reflexivity.
Defined.
